(* ===== verification/_CoqProject ===== *)
-Q . S2P
Prelude.v
PyStr.v
Language.v
Config.v
Discover.v
Client.v
Worker.v
Output.v
Pool.v
Orchestrator.v
Main.v
Scenarios.v
