(* ===== verification/Prelude.v ===== *)
(** * A verification of Video-Transcription-Automator

    The program (src/Video-Transcription-Automator.py, 176 lines) submits
    the videos of yesterday's channel folders to a remote speech-to-text
    service and writes each SRT transcript next to its video.  Its parts,
    and the file and Module of this development that model each:

    - [PyStr.v], Modules [PyStr] and [PosixPath]: the Python library the
      script calls on strings, [str.rfind/rstrip/endswith/startswith] and
      [posixpath.basename/dirname/join/splitext], translated from CPython
      over byte strings (Python's [-1] of [rfind] is [None]).
    - [Language.v], Module [Language]: [get_language_from_directory]
      (lines 60-74), the dict literal as a [gmap].
    - [Config.v], Module [Config]: [base_conf] and [settings] (lines 10-24)
      and the dict objects of the run in an explicit store of locations,
      with [copy.deepcopy] (line 86) and the language write (line 87), so
      that which work items share a dict is part of the model.
    - [Discover.v], Module [Discover]: [os.walk] over a finite directory
      tree and the gathering loop of [process_and_upload_...] (lines
      80-96), [gather], threading the object store.
    - [Client.v], Module [Client]: the interface of [BatchClient], a
      [Class TranscriptionClient] whose calls return a value or an
      exception ([HTTPStatusError] with status code and body, or any other
      exception); the printed lines of the script as the inductive [Line];
      [getTranscript] and [getJobIDs] (lines 27-57).
    - [Worker.v], Module [Worker]: [process_single_file] (lines 99-133) as
      the reference function, and as [task_step], four atomic steps cut
      at the two blocking remote calls and at the write (a [print] is one
      atomic line; a write and the line reporting it are one step), which
      the pool interleaves;
      [transcript_path] (line 121); the frame lemmas (a step's lines do not
      depend on the files, its write is a union with the item's own
      transcript).
    - [Output.v], Module [Output]: the text of every [print], [render]
      (the f-strings of lines 33-176, with [str(e)] a parameter), and
      [stdout], the text a log writes ([time.sleep] writes nothing).
    - [Pool.v], Module [Pool]: [ThreadPoolExecutor(max_workers=8)] and the
      [as_completed] loop (lines 135-145) as the step relation [pool_step]
      on a [Pool] state (FIFO queue of futures, running threads with their
      stage, completed futures in completion order, the futures
      [as_completed] has yielded in its order, files, log); any running
      thread may step and [as_completed] may yield any completed future it
      has not yielded (CPython yields the futures done before it starts in
      set order), so every interleaving is a run.  [pool_choice] is the
      same step as an executable scheduler choice, and [pool_sched] runs a
      schedule.
    - [Orchestrator.v], Module [Orchestrator]: the contract of a batch,
      [batch_spec], stated against the sequential reference (the items run
      one after the other in list order), and the simulation invariant
      [trace_inv] by which the pool refines it.
    - [Main.v], Modules [Date] and [Script]: yesterday's date and
      [strftime("%d %B")] (lines 147-152), the five directories and the
      two batches run in order with the 30-second sleep (lines 154-176);
      a batch run is [gather] followed by a drained run of the pool.
    - [Scenarios.v], Module [Scenarios]: the failure cases of the spec
      (sections 7 and 8) run through the pool against services that refuse
      the credentials, lose a job or refuse submissions with a
      diagnostic, with the refinement's invariants as the tool.

    How they interact: the script calls the orchestrator once per batch;
    the orchestrator calls the discoverer, which calls the resolver and
    copies [base_conf]; each pool thread reads its item's configuration
    object (shared with the other items of its directory), calls the
    client, and writes the transcript file; the main thread collects the
    futures.  The client interface is the boundary: every theorem about the
    worker, the pool and the script holds for every [TranscriptionClient]
    instance and every [writable] predicate of the local file system.

    What is proved (claim ids C1-C36 in the doc comments):
    - the pool (C1-C4, C7-C11): when drained, exactly one outcome per work
      item; the refinement of the batch contract when transcript paths are
      distinct (outcomes, files equal to a sequential run, the log an
      interleaving of the items' lines each in its own order); in every
      reachable state the last item to complete wins a shared path; each
      item's lines in order in the log, whatever the schedule; each item's
      outcome independent of the schedule and of the other items; queued,
      running and completed futures a permutation of the submitted ones;
      at most eight in flight; a drained state reachable from every state,
      a measure lowered by every step;
    - failures in a batch (C5-C6): with rejected credentials every item is
      still attempted and reports its failure, nothing is written and no
      future raises; a lost job fails only its own item, whose error is
      printed with its name, in every schedule;
    - the worker and its output (C12-C16, C29-C31): the only exceptions
      that escape it, and on a gathered batch only the [json()] one; the
      success path; it writes nothing but its own transcript; every printed
      line but those of the 401 and 400 handlers names its video; the
      transcript path of ordinary names, the collision of [pre/.mp4] and
      [pre/.mp4.mp4] in every folder, injectivity on ordinary names;
    - the discoverer (C17-C22): each item's configuration is [base_conf]
      with its directory's language; the items come in one block per
      directory, blocks do not share configurations and [base_conf] is
      untouched; items of one directory do share theirs; the store stays
      well formed with no dangling reference; one item per [.mp4] file;
      every path ends in [.mp4];
    - the resolver and the script (C23-C28, C32-C34): the language of every
      channel directory (["auto"] for an unmapped one, where the comment of
      line 73 says ['en-GB']); the files of a completed script are those of
      the two batches run sequentially (distinct transcript paths); its log
      is batch 1's interleaved lines, the sleep, then batch 2's, with
      sequential outcomes; the languages of the five script directories;
      batch 1 drains before the sleep and batch 2; the script completes;
      the trailing-slash case of the resolver; the date round trip; for
      every date, folders under the fixed period and zero-padded days;
    - the utilities (C35-C36): exactly when [getTranscript] raises, and
      that it writes only ["00123.txt"].

    Supporting results that are not claims: [Worker.task_run_full] relates the four-step thread to
    [process_single_file]; [Pool.pool_choice_sound] and
    [Pool.pool_choice_complete] make the executable scheduler the step
    relation.

    Bounds and fuel: [task_run] needs four steps ([task_run_full]; more
    fuel changes nothing, as [Finished] is absorbing); the pool needs no
    fuel, its termination is the measure of C11 (six per queued item, remaining
    steps plus one per thread, one per uncollected future).  Years are [N]
    (1 to 9999, [datetime]'s range); days and months are [nat].

    Not modelled: the remote service itself.  A [TranscriptionClient]
    instance answers each call by its arguments; its job queue, quotas and
    timing are not modelled.  The theorems hold for every instance, so
    every answer the code can receive is covered (refusals, lost jobs, bad
    bodies: [Scenarios]); what is left out is a service whose answers depend
    on earlier calls or on time, which would make an item's outcome depend
    on the schedule, a coupling the code neither controls nor handles.  A
    call that never returns ([wait_for_completion] has no timeout, spec
    section 9) is not modelled either: every call answers, and with a hung
    call the pool would never drain.  Also not modelled:
    the network, the text of [str(e)] for an exception (a parameter of
    [Output.render]: httpx builds it from the request URL and the reason
    phrase, which the script never sees), wall-clock time ([time.sleep] is a log event), symbolic
    links in [os.walk], the interleaving of printed characters within a
    line (a [print] is one atomic line), a job dict of [list_jobs] without
    the keys line 57 reads ([JobInfo] always has them), and the
    [with BatchClient(...)] context managers, which only open and close the
    HTTP session.  [getJobIDs] is defined but carries no theorem: it prints
    one line per listed job and nothing else.  [pool_next] and [pool_run]
    are one deterministic schedule, used only to run the examples, and are
    proved to be runs of the pool. *)

From stdpp Require Export base strings gmap list.
From Stdlib Require Export Ascii ZArith Lia.

(** ** Scope, notations and automation shared by the development *)

Declare Scope vta_scope.
Delimit Scope vta_scope with vta.

Create HintDb vta.
Create Rewrite HintDb vta_rw.

(** [case_ifs] splits every boolean test of the goal, keeping the
    equation. *)
Ltac case_ifs :=
  repeat match goal with
  | |- context [if ?b then _ else _] =>
      let E := fresh "E" in destruct b eqn:E
  end.

(** [elem_compute] proves a membership in a closed list by evaluation. *)
Ltac elem_compute := apply list_elem_of_In; vm_compute; tauto.

(** ** Strings as Python sees them

    A Python [str] of this program is a path or a message; the paths are
    handled byte-wise by [posixpath] (the separators '/' and '.' are ASCII,
    and no byte of a multi-byte UTF-8 character equals them), so a string is
    modelled as a Rocq [string] of bytes. *)

(** stdpp declares [String.append] [simpl never]; its two equations are
    the rewrite rules below, and [str_simpl] applies them. *)
Lemma str_app_nil_l (s : string) : "" +:+ s = s.
Proof. reflexivity. Qed.

Lemma str_app_cons (c : ascii) (s1 s2 : string) :
  String.String c s1 +:+ s2 = String.String c (s1 +:+ s2).
Proof. reflexivity. Qed.

Ltac str_simpl := rewrite ?str_app_nil_l, ?str_app_cons; simpl.

Lemma str_app_nil_r (s : string) : s +:+ "" = s.
Proof. induction s; str_simpl; congruence. Qed.

Lemma str_app_assoc (s1 s2 s3 : string) :
  (s1 +:+ s2) +:+ s3 = s1 +:+ (s2 +:+ s3).
Proof. induction s1; str_simpl; congruence. Qed.

Lemma str_length_app (s1 s2 : string) :
  String.length (s1 +:+ s2) = String.length s1 + String.length s2.
Proof. induction s1; str_simpl; congruence. Qed.

#[export] Hint Rewrite str_app_nil_l str_app_cons str_app_nil_r str_app_assoc
  str_length_app : vta_rw.

Lemma ascii_eqb_neq (a b : ascii) : a ≠ b → Ascii.eqb a b = false.
Proof. intros H. apply Ascii.eqb_neq. exact H. Qed.

#[export] Hint Resolve ascii_eqb_neq : vta.

(** ** Lists split around one element *)

Lemma drop_S_middle {A} (r1 r2 : list A) (x : A) : drop (S (length r1)) (r1 ++ x :: r2) = r2.
Proof. induction r1; simpl; auto. Qed.

#[export] Hint Rewrite @drop_S_middle : vta_rw.

(** ** Interleavings

    [interleaving ss l]: [l] is the lines of the streams [ss] printed by
    concurrent threads, each stream's lines in its own order.  The
    relation is built line by line, the way a run appends to stdout. *)
Inductive interleaving {A} : list (list A) → list A → Prop :=
  | il_nil n : interleaving (replicate n []) []
  | il_snoc ss l i s x :
      interleaving ss l → ss !! i = Some s →
      interleaving (<[i := s ++ [x]]> ss) (l ++ [x]).

Section Interleaving.
Context {A : Type}.
Implicit Types (ss : list (list A)) (l s : list A).

(** A thread printing several lines in a row. *)
Lemma interleaving_app ss l i s ls :
  interleaving ss l → ss !! i = Some s → interleaving (<[i := s ++ ls]> ss) (l ++ ls).
Proof.
  intros Hil Hi. induction ls as [|x ls IH] using rev_ind.
  - rewrite !app_nil_r, list_insert_id by done. exact Hil.
  - rewrite !app_assoc, <- (list_insert_insert_eq ss i ((s ++ ls) ++ [x]) (s ++ ls)).
    apply il_snoc; [exact IH |]. apply list_lookup_insert_eq. by eapply lookup_lt_Some.
Qed.

(** Nothing else is printed: the log is a permutation of the streams. *)
Lemma interleaving_perm ss l : interleaving ss l → l ≡ₚ mjoin ss.
Proof.
  induction 1 as [n | ss l i s x Hil IH Hi].
  - induction n; simpl; done.
  - pose proof (lookup_lt_Some _ _ _ Hi) as Hlt.
    rewrite insert_take_drop by done.
    rewrite <- (take_drop_middle ss i s Hi) in IH.
    rewrite IH, !join_app; simpl. solve_Permutation.
Qed.

(** Each stream is printed in its own order. *)
Lemma interleaving_sublist ss l j s : interleaving ss l → ss !! j = Some s → s `sublist_of` l.
Proof.
  intros Hil. revert j s. induction Hil as [n | ss l i s x Hil IH Hi]; intros j t Hj.
  - apply lookup_replicate in Hj as [-> _]. apply sublist_nil_l.
  - destruct (decide (i = j)) as [<- | Hne].
    + rewrite list_lookup_insert_eq in Hj by (by eapply lookup_lt_Some). injection Hj as <-.
      apply sublist_app; [exact (IH i s Hi) | done].
    + rewrite list_lookup_insert_ne in Hj by done. apply sublist_inserts_r. exact (IH j t Hj).
Qed.

(** A thread [i] of the streams printing [ls], and the last stream. *)
Lemma interleaving_item ss c l i s ls :
  interleaving (ss ++ [c]) l → ss !! i = Some s →
  interleaving (<[i := s ++ ls]> ss ++ [c]) (l ++ ls).
Proof.
  intros Hil Hi. pose proof (lookup_lt_Some _ _ _ Hi) as Hlt.
  rewrite <- insert_app_l by done. apply interleaving_app; [done |].
  by rewrite lookup_app_l.
Qed.

Lemma interleaving_last ss c l ls :
  interleaving (ss ++ [c]) l → interleaving (ss ++ [c ++ ls]) (l ++ ls).
Proof.
  intros Hil. pose proof (interleaving_app _ _ (length ss) c ls Hil) as H.
  rewrite list_lookup_middle, <- (Nat.add_0_r (length ss)), insert_app_r in H by done.
  exact (H eq_refl).
Qed.

End Interleaving.

(** ** Folding a union of maps

    Threads that write disjoint sets of files commute: the union of their
    writes does not depend on the order in which they finish. *)
Lemma foldl_union_perm `{Countable K} {V B} `{EqDecision B} (d : B → gmap K V) (m : gmap K V) (l1 l2 : list B) :
  (∀ x y, x ≠ y → d x ##ₘ d y) → l1 ≡ₚ l2 →
  foldl (λ f x, d x ∪ f) m l1 = foldl (λ f x, d x ∪ f) m l2.
Proof.
  intros Hd Hp. revert m. induction Hp as [| x l1 l2 _ IH | x y l | l1 l2 l3 _ IH1 _ IH2];
    intros m; simpl; [done | apply IH | | by rewrite IH1, IH2].
  f_equal. destruct (decide (x = y)) as [-> | Hne]; [done |].
  rewrite !(assoc_L (∪)). f_equal. apply map_union_comm, Hd. congruence.
Qed.

(** Folding over the indices of a list is folding over the list. *)
Lemma foldl_seq_lookup {A B} (g : B → A → B) (l : list A) (b : B) :
  foldl (λ acc i, from_option (g acc) acc (l !! i)) b (seq 0 (length l)) = foldl g b l.
Proof.
  cut (∀ pre, foldl (λ acc i, from_option (g acc) acc ((pre ++ l) !! i)) b
                (seq (length pre) (length l)) = foldl g b l).
  { intros H. exact (H []). }
  revert b. induction l as [|x l IH]; intros b pre; [done |].
  simpl. rewrite list_lookup_middle by done. simpl.
  rewrite <- (IH (g b x) (pre ++ [x])), length_app, <- app_assoc. simpl.
  by rewrite Nat.add_1_r.
Qed.

Lemma foldl_ext {A B} (f g : A → B → A) (a : A) (l : list B) :
  (∀ x y, f x y = g x y) → foldl f a l = foldl g a l.
Proof. intros H. revert a. induction l as [|x l IH]; intros a; simpl; [done |]. by rewrite H. Qed.

Lemma foldl_unchanged {A B} (f : A → B → A) (a : A) (l : list B) :
  (∀ x y, f x y = x) → foldl f a l = a.
Proof. intros H. induction l as [|x l IH] in a |- *; simpl; [done |]. by rewrite H. Qed.

(** ** Association lists keyed by their first component *)

Lemma elem_of_map_fst {A B} (l : list (A * B)) (x : A) (y : B) : (x, y) ∈ l → x ∈ map fst l.
Proof. intros H. apply list_elem_of_In, in_map_iff. exists (x, y). by rewrite <- list_elem_of_In. Qed.

Lemma NoDup_map_fst_eq {A B} (l : list (A * B)) (x : A) (y1 y2 : B) :
  NoDup (map fst l) → (x, y1) ∈ l → (x, y2) ∈ l → y1 = y2.
Proof.
  induction l as [|[a b] l IH]; simpl; [set_solver |].
  intros [Ha Hnd]%NoDup_cons [E1 | H1]%elem_of_cons [E2 | H2]%elem_of_cons; simplify_eq; try done.
  - destruct Ha. by eapply elem_of_map_fst.
  - destruct Ha. by eapply elem_of_map_fst.
  - by apply IH.
Qed.

Lemma map_fst_imap {A B} (g : nat → A → B) (l : list A) :
  map fst (imap (λ i x, (i, g i x)) l) = seq 0 (length l).
Proof.
  cut (∀ k (g : nat → A → B), map fst (imap (λ i x, (k + i, g i x)) l) = seq k (length l)).
  { intros H. exact (H 0 g). }
  induction l as [|x l IH]; intros k g'; [done |].
  rewrite imap_cons. cbn. rewrite Nat.add_0_r. f_equal.
  rewrite <- (IH (S k) (λ i, g' (S i))). f_equal. apply imap_ext. intros i y _. cbn.
  by rewrite Nat.add_succ_r.
Qed.
