(* ===== verification/PyStr.v ===== *)
(** * Python [str] methods and [posixpath]

    The script calls [str.endswith] (line 92), [os.path.basename] and
    [os.path.dirname] (line 71), [os.path.join] (line 94) and
    [os.path.splitext] (line 121).  This file translates those library
    routines (CPython's [posixpath.py] and [genericpath._splitext]) over
    byte strings, with Python's [-1] sentinel of [str.rfind] kept as
    [None], and proves the lemmas the components use. *)

From S2P Require Import Prelude.

Module PyStr.

(** [s[:n]] *)
Fixpoint take (n : nat) (s : string) : string :=
  match n, s with
  | 0, _ | _, EmptyString => EmptyString
  | S n', String.String c s' => String.String c (take n' s')
  end.

(** [s[n:]] *)
Fixpoint drop (n : nat) (s : string) : string :=
  match n, s with
  | 0, _ => s
  | _, EmptyString => EmptyString
  | S n', String.String _ s' => drop n' s'
  end.

(** [s.rfind(c)]: the index of the last [c], [None] for Python's [-1]. *)
Fixpoint rfind (c : ascii) (s : string) : option nat :=
  match s with
  | EmptyString => None
  | String.String x s' =>
      match rfind c s' with
      | Some k => Some (S k)
      | None => if Ascii.eqb x c then Some 0 else None
      end
  end.

(** Python's integer value of [s.rfind(c)]. *)
Definition rfind_z (c : ascii) (s : string) : Z :=
  match rfind c s with Some k => Z.of_nat k | None => (-1)%Z end.

(** [s.rstrip(c)] *)
Fixpoint rstrip (c : ascii) (s : string) : string :=
  match s with
  | EmptyString => EmptyString
  | String.String x s' =>
      let r := rstrip c s' in
      if String.eqb r "" && Ascii.eqb x c then EmptyString
      else String.String x r
  end.

(** [c * n] *)
Fixpoint repeat (c : ascii) (n : nat) : string :=
  match n with 0 => EmptyString | S n' => String.String c (repeat c n') end.

(** [s.endswith(suf)] is [s[len(s)-len(suf):] == suf] for a suffix no longer
    than [s]. *)
Definition endswith (suf s : string) : bool :=
  Nat.leb (String.length suf) (String.length s)
  && String.eqb (drop (String.length s - String.length suf) s) suf.

(** [s.startswith(pre)] is [s[:len(pre)] == pre]. *)
Definition startswith (pre s : string) : bool :=
  String.eqb (take (String.length pre) s) pre.

(** [p.rfind(c) + 1]: where the text after the last [c] starts. *)
Definition after_rfind (c : ascii) (s : string) : nat :=
  match rfind c s with Some k => S k | None => 0 end.

End PyStr.

Module PosixPath.
Import PyStr.

Definition sep : ascii := "/".
Definition extsep : ascii := ".".

(** [posixpath.basename]: [i = p.rfind(sep) + 1; return p[i:]]. *)
Definition basename (p : string) : string := drop (after_rfind sep p) p.

(** [posixpath.dirname]: [head = p[:i]], stripped of its trailing
    separators unless it is empty or made of separators only. *)
Definition dirname (p : string) : string :=
  let head := take (after_rfind sep p) p in
  if negb (String.eqb head "")
     && negb (String.eqb head (repeat sep (String.length head)))
  then rstrip sep head else head.

(** [posixpath.join(a, b)] for one component [b]. *)
Definition join (a b : string) : string :=
  if startswith (String.String sep "") b then b
  else if String.eqb a "" || endswith (String.String sep "") a then a +:+ b
  else a +:+ String.String sep b.

(** The loop of [genericpath._splitext] that skips the leading dots of the
    file name: [true] when it reaches a byte that is not [extsep] before
    [dotIndex], i.e. when the dot at [dotIndex] starts an extension. *)
Fixpoint skip_leading_dots (p : string) (filenameIndex steps : nat) : bool :=
  match steps with
  | 0 => false
  | S n =>
      if negb (String.eqb (take 1 (drop filenameIndex p)) (String.String extsep ""))
      then true
      else skip_leading_dots p (S filenameIndex) n
  end.

(** [posixpath.splitext]. *)
Definition splitext (p : string) : string * string :=
  let sepIndex := rfind_z sep p in
  let dotIndex := rfind_z extsep p in
  if (sepIndex <? dotIndex)%Z
     && skip_leading_dots p (Z.to_nat (sepIndex + 1))
          (Z.to_nat (dotIndex - (sepIndex + 1)))
  then (take (Z.to_nat dotIndex) p, drop (Z.to_nat dotIndex) p)
  else (p, "").

End PosixPath.

(** ** Lemmas on the [str] methods *)

Module PyStrFacts.
Import PyStr.

(** [exists_other c s]: [s] has a byte other than [c]. *)
Fixpoint exists_other (c : ascii) (s : string) : bool :=
  match s with
  | EmptyString => false
  | String.String x s' => negb (Ascii.eqb x c) || exists_other c s'
  end.

Lemma rfind_cons (c x : ascii) (s : string) :
  rfind c (String.String x s)
  = match rfind c s with
    | Some k => Some (S k)
    | None => if Ascii.eqb x c then Some 0 else None
    end.
Proof. reflexivity. Qed.

Lemma take_S_cons (n : nat) (c : ascii) (s : string) :
  take (S n) (String.String c s) = String.String c (take n s).
Proof. reflexivity. Qed.

Lemma take_app (s1 s2 : string) : take (String.length s1) (s1 +:+ s2) = s1.
Proof. induction s1; str_simpl; congruence. Qed.

Lemma drop_app (s1 s2 : string) : drop (String.length s1) (s1 +:+ s2) = s2.
Proof. induction s1; str_simpl; auto. Qed.

(** [s[:n] + s[n:] == s], for every [n]. *)
Lemma take_drop (n : nat) (s : string) : take n s +:+ drop n s = s.
Proof.
  induction s as [|c s IH] in n |- *; destruct n as [|n]; try reflexivity.
  cbn [take drop]. by rewrite str_app_cons, IH.
Qed.

Lemma take_app_S (s1 s2 : string) (c : ascii) :
  take (S (String.length s1)) (s1 +:+ String.String c s2) = s1 +:+ String.String c "".
Proof.
  induction s1 as [|a s1 IH]; [reflexivity |].
  rewrite !str_app_cons. cbn [String.length].
  rewrite take_S_cons, IH. reflexivity.
Qed.

Lemma rfind_app_none (c : ascii) (s1 s2 : string) :
  rfind c s2 = None → rfind c (s1 +:+ s2) = rfind c s1.
Proof.
  intros H. induction s1; str_simpl; [exact H |]. rewrite IHs1. reflexivity.
Qed.

Lemma rfind_app_last (c : ascii) (s1 s2 : string) :
  rfind c s2 = None → rfind c (s1 +:+ String.String c s2) = Some (String.length s1).
Proof.
  intros H. induction s1; str_simpl.
  - rewrite H, Ascii.eqb_refl. reflexivity.
  - rewrite IHs1. reflexivity.
Qed.

Lemma after_rfind_last (c : ascii) (s1 s2 : string) :
  rfind c s2 = None →
  after_rfind c (s1 +:+ String.String c s2) = S (String.length s1).
Proof. intros H. unfold after_rfind. rewrite rfind_app_last by exact H. reflexivity. Qed.

Lemma rfind_none_head (c x : ascii) (s : string) :
  rfind c (String.String x s) = None → x ≠ c ∧ rfind c s = None.
Proof.
  simpl. destruct (rfind c s); [discriminate |].
  destruct (Ascii.eqb_spec x c); [discriminate | auto].
Qed.

Lemma rstrip_no_sep (c : ascii) (s : string) :
  rfind c s = None → rstrip c s = s.
Proof.
  induction s as [|x s IH]; [reflexivity |].
  intros [Hx Hs]%rfind_none_head. simpl. rewrite IH by exact Hs.
  rewrite (ascii_eqb_neq _ _ Hx), andb_false_r. reflexivity.
Qed.

Lemma rstrip_snoc_sep (c : ascii) (s : string) :
  rstrip c (s +:+ String.String c "") = rstrip c s.
Proof.
  induction s as [|x s IH]; str_simpl.
  - rewrite Ascii.eqb_refl. reflexivity.
  - rewrite IH. reflexivity.
Qed.

Lemma rstrip_app_keep (c : ascii) (s1 s2 : string) :
  rstrip c s2 ≠ "" → rstrip c (s1 +:+ s2) = s1 +:+ rstrip c s2.
Proof.
  intros H. induction s1 as [|x s1 IH]; str_simpl; [reflexivity |].
  rewrite IH. destruct (String.eqb_spec (s1 +:+ rstrip c s2) "") as [E|E].
  - destruct s1; [simpl in E; contradiction | discriminate].
  - reflexivity.
Qed.

Lemma exists_other_repeat (c : ascii) (n : nat) :
  exists_other c (repeat c n) = false.
Proof. induction n; simpl; [reflexivity |]. rewrite Ascii.eqb_refl. exact IHn. Qed.

Lemma exists_other_app (c : ascii) (s1 s2 : string) :
  exists_other c (s1 +:+ s2) = exists_other c s1 || exists_other c s2.
Proof. induction s1; str_simpl; [reflexivity |]. rewrite IHs1, orb_assoc. reflexivity. Qed.

Lemma exists_other_not_repeat (c : ascii) (s : string) (n : nat) :
  exists_other c s = true → s ≠ repeat c n.
Proof. intros H ->. rewrite exists_other_repeat in H. discriminate. Qed.

Lemma exists_other_no_sep (c : ascii) (s : string) :
  rfind c s = None → s ≠ "" → exists_other c s = true.
Proof.
  destruct s as [|x s]; [contradiction |].
  intros [Hx _]%rfind_none_head _. simpl.
  rewrite (ascii_eqb_neq _ _ Hx). reflexivity.
Qed.

Lemma drop_S_cons (n : nat) (c : ascii) (s : string) :
  drop (S n) (String.String c s) = drop n s.
Proof. reflexivity. Qed.

Lemma drop_app_S (s1 s2 : string) (c : ascii) :
  drop (S (String.length s1)) (s1 +:+ String.String c s2) = s2.
Proof. induction s1; str_simpl; auto. Qed.

Lemma drop_app_plus (s1 s2 : string) (m : nat) :
  drop (String.length s1 + m) (s1 +:+ s2) = drop m s2.
Proof. induction s1; str_simpl; auto. Qed.

Lemma endswith_app (suf s1 s2 : string) :
  endswith suf s2 = true → endswith suf (s1 +:+ s2) = true.
Proof.
  unfold endswith. intros [Hle Heq]%andb_true_iff.
  apply Nat.leb_le in Hle. rewrite str_length_app.
  replace (String.length s1 + String.length s2 - String.length suf)
    with (String.length s1 + (String.length s2 - String.length suf)) by lia.
  rewrite drop_app_plus, Heq, andb_true_r. apply Nat.leb_le. lia.
Qed.

Lemma str_eqb_single (x y : ascii) :
  String.eqb (String.String x "") (String.String y "") = Ascii.eqb x y.
Proof.
  destruct (String.eqb_spec (String.String x "") (String.String y "")) as [E|E],
    (Ascii.eqb_spec x y); congruence.
Qed.

End PyStrFacts.

(** ** Lemmas on [posixpath] *)

Module PosixPathFacts.
Import PyStr PosixPath PyStrFacts.

(** [dirname] of a path whose last component is [leaf] is the rest of the
    path, stripped of its trailing separators. *)
Lemma dirname_snoc (dir leaf : string) :
  rfind sep leaf = None → exists_other sep dir = true →
  dirname (dir +:+ String.String sep leaf) = rstrip sep dir.
Proof.
  intros Hleaf Hdir. unfold dirname.
  rewrite after_rfind_last, take_app_S by exact Hleaf.
  assert (Hhead : exists_other sep (dir +:+ String.String sep "") = true)
    by (rewrite exists_other_app, Hdir; reflexivity).
  destruct (String.eqb_spec (dir +:+ String.String sep "") "") as [E|_].
  { rewrite E in Hhead. discriminate. }
  destruct (String.eqb_spec (dir +:+ String.String sep "")
              (repeat sep (String.length (dir +:+ String.String sep "")))) as [E|_].
  { exfalso. exact (exists_other_not_repeat _ _ _ Hhead E). }
  apply rstrip_snoc_sep.
Qed.

(** A path ending in a non-empty component without separator has a byte
    other than [sep] and no trailing separator to strip. *)
Lemma last_component (pre leaf : string) :
  rfind sep leaf = None → leaf ≠ "" →
  exists_other sep (pre +:+ String.String sep leaf) = true
  ∧ rstrip sep (pre +:+ String.String sep leaf) = pre +:+ String.String sep leaf.
Proof.
  intros Hleaf Hne. split.
  - rewrite exists_other_app. simpl.
    rewrite (exists_other_no_sep _ _ Hleaf Hne), orb_true_r. reflexivity.
  - assert (Hr : rstrip sep (String.String sep leaf) = String.String sep leaf).
    { simpl. rewrite (rstrip_no_sep _ _ Hleaf).
      destruct (String.eqb_spec leaf ""); [contradiction | reflexivity]. }
    rewrite rstrip_app_keep; rewrite Hr; [reflexivity | discriminate].
Qed.

Lemma basename_snoc (dir leaf : string) :
  rfind sep leaf = None → basename (dir +:+ String.String sep leaf) = leaf.
Proof.
  intros H. unfold basename. rewrite after_rfind_last by exact H.
  apply drop_app_S.
Qed.

Lemma skip_leading_dots_app (pre s rest : string) :
  skip_leading_dots (pre +:+ s +:+ rest) (String.length pre) (String.length s)
  = exists_other extsep s.
Proof.
  revert pre. induction s as [|x s IH]; intros pre; [reflexivity |].
  cbn [String.length skip_leading_dots exists_other].
  rewrite str_app_cons, drop_app, take_S_cons. simpl take.
  rewrite str_eqb_single. destruct (Ascii.eqb x extsep); [| reflexivity].
  simpl. specialize (IH (pre +:+ String.String x "")).
  rewrite str_length_app, Nat.add_1_r, str_app_assoc in IH. exact IH.
Qed.

(** [splitext] of [pre/stem.ext], where [stem] has no separator and a byte
    other than a dot and [ext] has neither, cuts at the dot of [ext]. *)
Lemma splitext_ext (pre stem ext : string) :
  rfind sep stem = None → exists_other extsep stem = true →
  rfind sep ext = None → rfind extsep ext = None →
  splitext (pre +:+ String.String sep (stem +:+ String.String extsep ext))
  = (pre +:+ String.String sep stem, String.String extsep ext).
Proof.
  intros Hs Ho He1 He2. unfold splitext, rfind_z.
  assert (Hsep : rfind sep (stem +:+ String.String extsep ext) = None).
  { rewrite rfind_app_none by (simpl; rewrite He1; reflexivity). exact Hs. }
  rewrite (rfind_app_last sep pre _ Hsep).
  replace (pre +:+ String.String sep (stem +:+ String.String extsep ext))
    with ((pre +:+ String.String sep stem) +:+ String.String extsep ext)
    by (rewrite str_app_assoc; reflexivity).
  rewrite (rfind_app_last extsep _ _ He2), str_length_app. cbn [String.length].
  replace (Z.to_nat (Z.of_nat (String.length pre) + 1)) with (S (String.length pre)) by lia.
  replace (Z.to_nat (Z.of_nat (String.length pre + S (String.length stem))
                     - (Z.of_nat (String.length pre) + 1)))
    with (String.length stem) by lia.
  replace (Z.to_nat (Z.of_nat (String.length pre + S (String.length stem))))
    with (String.length (pre +:+ String.String sep stem))
    by (rewrite str_length_app; simpl; lia).
  replace (S (String.length pre)) with (String.length (pre +:+ String.String sep ""))
    by (rewrite str_length_app; simpl; lia).
  assert (Hlt : (Z.of_nat (String.length pre) <? Z.of_nat (String.length pre + S (String.length stem)))%Z = true)
    by (apply Z.ltb_lt; lia).
  rewrite Hlt. simpl andb.
  replace ((pre +:+ String.String sep stem) +:+ String.String extsep ext)
    with ((pre +:+ String.String sep "") +:+ stem +:+ String.String extsep ext)
    by (rewrite !str_app_assoc; reflexivity).
  rewrite skip_leading_dots_app, Ho.
  replace ((pre +:+ String.String sep "") +:+ stem +:+ String.String extsep ext)
    with ((pre +:+ String.String sep stem) +:+ String.String extsep ext)
    by (rewrite !str_app_assoc; reflexivity).
  rewrite take_app, drop_app. reflexivity.
Qed.

(** [root + ext == p]. *)
Lemma splitext_concat (p : string) : (splitext p).1 +:+ (splitext p).2 = p.
Proof. unfold splitext. destruct (_ && _); [apply take_drop | apply str_app_nil_r]. Qed.

(** [join(a, b)] ends with [b]. *)
Lemma endswith_join (suf a b : string) :
  endswith suf b = true → endswith suf (join a b) = true.
Proof.
  intros H. unfold join. case_ifs; [exact H | apply endswith_app, H |].
  replace (a +:+ String.String sep b) with ((a +:+ String.String sep "") +:+ b)
    by (rewrite str_app_assoc; reflexivity).
  apply endswith_app, H.
Qed.

End PosixPathFacts.
