(* ===== verification/Config.v ===== *)
(** * Transcription configurations and the object store (lines 13-24, 86-87)

    [base_conf] is a module-level dict; line 86 deep-copies it per directory
    and line 87 writes the directory's language into the copy.  The dicts
    are objects that several work items may reference, so the model keeps
    them in a store of objects: a location per outer dict (the inner
    ["transcription_config"] dict is owned by its outer dict, since
    [deepcopy] copies both), the base configuration at location 0. *)

From S2P Require Import Prelude.

Module Config.

(** The inner dict [{"operating_point": ..., "language": ...}]; a key that
    is absent is [None]. *)
Record TranscriptionConfig := {
  operating_point : string;
  language : option string;
}.

(** The outer dict [{"type": ..., "transcription_config": {...}}]. *)
Record JobConfig := {
  conf_type : string;
  transcription_config : TranscriptionConfig;
}.

(** Lines 19-24. *)
Definition base_conf : JobConfig := {|
  conf_type := "transcription";
  transcription_config := {| operating_point := "enhanced"; language := None |};
|}.

(** [ConnectionSettings(url=..., auth_token=API_KEY)] of lines 11-16. *)
Record ConnectionSettings := { url : string; auth_token : string }.

Definition API_KEY : string := "0000".

Definition settings : ConnectionSettings := {|
  url := "https://asr.api.speechmatics.com/v2";
  auth_token := API_KEY;
|}.

(** ** The object store *)

Definition loc := nat.

Record Store := { next_loc : loc; objs : gmap loc JobConfig }.

(** The object the module global [base_conf] names. *)
Definition base_loc : loc := 0.

Definition store0 : Store := {| next_loc := 1; objs := {[base_loc := base_conf]} |}.

(** [copy.deepcopy(obj)]: a fresh object with the value of [obj]. *)
Definition deepcopy (st : Store) (l : loc) : loc * Store :=
  let v := default base_conf (objs st !! l) in
  (next_loc st, {| next_loc := S (next_loc st); objs := <[next_loc st := v]> (objs st) |}).

(** [conf["transcription_config"]["language"] = lang] on the object at [l]. *)
Definition with_language (lang : string) (c : JobConfig) : JobConfig := {|
  conf_type := conf_type c;
  transcription_config := {|
    operating_point := operating_point (transcription_config c);
    language := Some lang |};
|}.

Definition set_language (st : Store) (l : loc) (lang : string) : Store :=
  {| next_loc := next_loc st; objs := alter (with_language lang) l (objs st) |}.

(** [conf["transcription_config"]["language"]] read through [l]. *)
Definition get_language (st : Store) (l : loc) : option string :=
  c ← objs st !! l; language (transcription_config c).

(** A store is well formed when the base configuration is allocated and no
    object lives at or beyond the next fresh location. *)
Definition store_wf (st : Store) : Prop :=
  is_Some (objs st !! base_loc) ∧ ∀ l, next_loc st ≤ l → objs st !! l = None.

(** ** Lemmas *)

Lemma store0_wf : store_wf store0.
Proof.
  split; [by eexists |]. intros l Hl. simpl in *.
  rewrite lookup_singleton_ne; [done | unfold base_loc; lia].
Qed.

Lemma deepcopy_fresh (st : Store) (l : loc) :
  store_wf st → objs st !! fst (deepcopy st l) = None.
Proof. intros [_ H]. apply H. simpl. lia. Qed.

Lemma deepcopy_wf (st : Store) (l : loc) :
  store_wf st → store_wf (snd (deepcopy st l)).
Proof.
  intros [[v Hb] Hn]. split; simpl.
  - rewrite lookup_insert_ne; [eauto | intros E; rewrite <- E in Hb; rewrite Hn in Hb; [discriminate | unfold base_loc; lia]].
  - intros l' Hl'. rewrite lookup_insert_ne by lia. apply Hn. lia.
Qed.

Lemma deepcopy_lookup (st : Store) (l l' : loc) :
  objs (snd (deepcopy st l)) !! l'
  = if decide (l' = next_loc st) then Some (default base_conf (objs st !! l))
    else objs st !! l'.
Proof. simpl. rewrite lookup_insert. repeat case_decide; congruence. Qed.

Lemma set_language_lookup (st : Store) (l l' : loc) (lang : string) :
  objs (set_language st l lang) !! l'
  = if decide (l = l') then with_language lang <$> objs st !! l' else objs st !! l'.
Proof. simpl. rewrite lookup_alter. repeat case_decide; congruence. Qed.

Lemma set_language_wf (st : Store) (l : loc) (lang : string) :
  store_wf st → store_wf (set_language st l lang).
Proof.
  intros [[v Hb] Hn]. split.
  - rewrite set_language_lookup, Hb. case_decide; by eexists.
  - intros l' Hl'. rewrite set_language_lookup, Hn by exact Hl'. by case_decide.
Qed.

#[export] Hint Resolve deepcopy_wf set_language_wf store0_wf : vta.

End Config.
