(* ===== verification/Discover.v ===== *)
(** * WorkItemDiscoverer: [os.walk] and the gathering loop (lines 80-96)

    The directory trees the script walks are a finite map from the paths it
    passes to [os.walk] to their subtrees.  [os_walk] is CPython's top-down
    walk (3.12: a stack of directories popped in listing order, each
    yielding [(top, dirs, nondirs)] before its subdirectories); a path that
    is missing or is a file yields nothing, as [os.walk] swallows the
    [OSError] of [scandir] when [onerror] is [None].  [gather] is the loop
    of lines 81-96, threading the object store of [Config]. *)

From S2P Require Import Prelude PyStr Language Config.
Import PyStr PosixPath PyStrFacts PosixPathFacts Config.

Module Discover.

(** A directory entry: a file, or a directory with its listing in
    [scandir] order.  Symbolic links are not modelled. *)
Inductive node :=
  | File
  | Dir (entries : list (string * node)).

Definition FileSystem := gmap string node.

Definition is_dir (n : node) : bool := match n with Dir _ => true | File => false end.

(** The [dirs] and [nondirs] lists [os.walk] builds from one listing. *)
Definition dir_names (es : list (string * node)) : list string :=
  map fst (filter (λ e, is_dir e.2 = true) es).
Definition file_names (es : list (string * node)) : list string :=
  map fst (filter (λ e, is_dir e.2 = false) es).

Definition walk_entry : Type := string * list string * list string.

(** Top-down pre-order walk of a subtree rooted at path [top]. *)
Fixpoint walk (top : string) (n : node) {struct n} : list walk_entry :=
  match n with
  | File => []
  | Dir es =>
      (top, dir_names es, file_names es) ::
      (fix go (es : list (string * node)) : list walk_entry :=
         match es with
         | [] => []
         | (name, child) :: rest => walk (join top name) child ++ go rest
         end) es
  end.

(** [os.walk(directory)] *)
Definition os_walk (fs : FileSystem) (directory : string) : list walk_entry :=
  match fs !! directory with Some n => walk directory n | None => [] end.

(** The dict [{"video_path": ..., "config": conf}] of lines 93-96; [config]
    is the location of the dict object it references. *)
Record WorkItem := { video_path : string; config : loc }.

(** Lines 90-96: one item per [.mp4] file, each referencing [conf]. *)
Definition dir_items (conf : loc) (w : list walk_entry) : list WorkItem :=
  flat_map (λ '(root, _, files),
      flat_map (λ file,
          if endswith ".mp4" file
          then [{| video_path := join root file; config := conf |}] else [])
        files) w.

(** Lines 83-96 for one [directory]. *)
Definition gather_directory (fs : FileSystem) (acc : Store * list WorkItem)
    (directory : string) : Store * list WorkItem :=
  let language := Language.get_language_from_directory directory in
  let '(conf, st1) := deepcopy acc.1 base_loc in
  let st2 := set_language st1 conf language in
  (st2, acc.2 ++ dir_items conf (os_walk fs directory)).

(** Lines 80-96: [video_files_and_configs] with the store after the loop. *)
Definition gather (fs : FileSystem) (st : Store) (directories : list string)
    : Store * list WorkItem :=
  foldl (gather_directory fs) (st, []) directories.

(** What the loop leaves in the store: [length directories] fresh objects,
    the [k]-th the base configuration with the [k]-th directory's language,
    and every older object (the base configuration among them) unchanged. *)
Definition gather_post (st : Store) (directories : list string) (st' : Store) : Prop :=
  next_loc st' = next_loc st + length directories ∧
  store_wf st' ∧
  (∀ l, l < next_loc st → objs st' !! l = objs st !! l) ∧
  (∀ k d, directories !! k = Some d →
     objs st' !! (next_loc st + k)
     = Some (with_language (Language.get_language_from_directory d)
               (default base_conf (objs st !! base_loc)))).

(** The items of the loop, directory by directory; the [k]-th directory's
    items reference the [k]-th fresh object. *)
Definition gather_items (fs : FileSystem) (n : loc) (directories : list string)
    : list WorkItem :=
  concat (imap (λ k d, dir_items (n + k) (os_walk fs d)) directories).

(** The number of [.mp4] files in a subtree, its own files first. *)
Fixpoint mp4_count (n : node) : nat :=
  match n with
  | File => 0
  | Dir es =>
      length (filter (λ f, endswith ".mp4" f = true) (file_names es)) +
      (fix go (es : list (string * node)) : nat :=
         match es with [] => 0 | (_, c) :: rest => mp4_count c + go rest end) es
  end.

#[export] Instance WorkItem_eq_dec : EqDecision WorkItem.
Proof. solve_decision. Defined.

(** The tree of the spec's scenario: [Channel 5/13 January/{a.mp4, sub/b.mp4}]
    next to a [Suria] folder with one video and a subtitle file. *)
Definition example_fs : FileSystem :=
  <["r/Suria/13 January" := Dir [("c.mp4", File); ("c.txt", File)]]>
  {["r/Channel 5/13 January" := Dir [("a.mp4", File); ("sub", Dir [("b.mp4", File)])]]}.

Definition example_dirs : list string := ["r/Channel 5/13 January"; "r/Suria/13 January"].

(** ** Lemmas *)

(** Induction over the nested tree: a directory from its entries. *)
Lemma node_ind' (P : node → Prop) :
  P File → (∀ es, Forall (λ e, P e.2) es → P (Dir es)) → ∀ n, P n.
Proof.
  intros HF HD. fix IH 1. intros [|es]; [exact HF |]. apply HD.
  induction es as [|[name c] es IHes]; constructor; [apply IH | exact IHes].
Qed.

Lemma dir_items_app (conf : loc) (w1 w2 : list walk_entry) :
  dir_items conf (w1 ++ w2) = dir_items conf w1 ++ dir_items conf w2.
Proof. unfold dir_items. apply flat_map_app. Qed.

Lemma dir_items_config (conf : loc) (w : list walk_entry) (it : WorkItem) :
  it ∈ dir_items conf w → config it = conf.
Proof.
  unfold dir_items. rewrite !list_elem_of_In, in_flat_map.
  intros ([[root ds] files] & _ & Hin). apply in_flat_map in Hin as (f & _ & Hf).
  destruct (endswith _ f); [| contradiction]. destruct Hf as [<-|[]]. reflexivity.
Qed.

Lemma length_file_items (root : string) (conf : loc) (files : list string) :
  length (flat_map (λ file, if endswith ".mp4" file
            then [{| video_path := join root file; config := conf |}] else []) files)
  = length (filter (λ f, endswith ".mp4" f = true) files).
Proof.
  induction files as [|f fs IH]; [reflexivity |]. simpl. rewrite length_app, IH.
  rewrite filter_cons. destruct (endswith ".mp4" f); reflexivity.
Qed.

Lemma wf_base_lt (st : Store) : store_wf st → base_loc < next_loc st.
Proof.
  intros [[v Hb] Hn]. destruct (decide (base_loc < next_loc st)); [done |].
  rewrite Hn in Hb by lia. discriminate.
Qed.

Lemma gather_directory_store (fs : FileSystem) (st : Store) acc d :
  (gather_directory fs (st, acc) d).1
  = set_language (deepcopy st base_loc).2 (next_loc st)
      (Language.get_language_from_directory d).
Proof. reflexivity. Qed.

Lemma gather_directory_old (fs : FileSystem) (st : Store) acc d l :
  l < next_loc st →
  objs (gather_directory fs (st, acc) d).1 !! l = objs st !! l.
Proof.
  intros Hl. rewrite gather_directory_store, set_language_lookup, deepcopy_lookup.
  repeat case_decide; try lia; reflexivity.
Qed.

Lemma gather_foldl (fs : FileSystem) (directories : list string) :
  ∀ st acc, store_wf st →
  let r := foldl (gather_directory fs) (st, acc) directories in
  r.2 = acc ++ gather_items fs (next_loc st) directories ∧ gather_post st directories r.1.
Proof.
  induction directories as [|d ds IH]; intros st acc Hwf.
  - simpl. unfold gather_items, gather_post. rewrite app_nil_r, Nat.add_0_r.
    split; [reflexivity |]. split; [simpl; lia |]. split; [exact Hwf |].
    split; [auto |]. intros k x Hk. rewrite lookup_nil in Hk. discriminate.
  - set (st2 := (gather_directory fs (st, acc) d).1).
    assert (Hwf2 : store_wf st2) by (unfold st2; rewrite gather_directory_store; eauto with vta).
    assert (Hn2 : next_loc st2 = S (next_loc st)) by reflexivity.
    assert (Hstep : gather_directory fs (st, acc) d
                    = (st2, acc ++ dir_items (next_loc st) (os_walk fs d))) by reflexivity.
    cbn [foldl]. rewrite Hstep.
    destruct (IH st2 (acc ++ dir_items (next_loc st) (os_walk fs d)) Hwf2)
      as (Hitems & Hnext & Hwf' & Hold & Hnew).
    assert (Hb : base_loc < next_loc st) by (apply wf_base_lt; exact Hwf).
    split; [| split; [| split; [| split]]].
    + rewrite Hitems, <- app_assoc. unfold gather_items. simpl.
      rewrite Nat.add_0_r. do 3 f_equal.
      apply imap_ext. intros k x _. simpl. f_equal. lia.
    + rewrite Hnext, Hn2. simpl. lia.
    + exact Hwf'.
    + intros l Hl. rewrite Hold by lia. apply gather_directory_old. exact Hl.
    + intros [|k] x Hk; simpl in Hk.
      * injection Hk as <-. rewrite Nat.add_0_r, Hold by lia.
        unfold st2. rewrite gather_directory_store, set_language_lookup, deepcopy_lookup.
        repeat case_decide; try lia. reflexivity.
      * rewrite Hn2 in Hnew. replace (next_loc st + S k) with (S (next_loc st) + k) by lia.
        rewrite (Hnew k x Hk). unfold st2. rewrite gather_directory_old by exact Hb.
        reflexivity.
Qed.

Lemma length_dir_items_walk (conf : loc) (n : node) :
  ∀ top, length (dir_items conf (walk top n)) = mp4_count n.
Proof.
  induction n as [|es Hes] using node_ind'; intros top; [reflexivity |].
  cbn [walk mp4_count]. unfold dir_items at 1. cbn [flat_map].
  rewrite length_app, length_file_items. f_equal. fold (dir_items conf).
  induction Hes as [|[name c] es Hc _ IH]; [reflexivity |].
  simpl in *. rewrite flat_map_app, length_app. f_equal; [apply Hc | exact IH].
Qed.

Lemma elem_of_gather_items (fs : FileSystem) (dirs : list string) :
  ∀ n it, it ∈ gather_items fs n dirs ↔
    ∃ k d, dirs !! k = Some d ∧ it ∈ dir_items (n + k) (os_walk fs d).
Proof.
  unfold gather_items. induction dirs as [|d ds IH]; intros n it; simpl.
  - split; [intros Hin; inversion Hin | intros (k & x & Hk & _); discriminate].
  - rewrite elem_of_app, Nat.add_0_r. split.
    + intros [Hin | Hin].
      { exists 0, d. rewrite Nat.add_0_r. split; [reflexivity | exact Hin]. }
      assert (Hin' : it ∈ concat (imap (λ k d, dir_items (S n + k) (os_walk fs d)) ds)).
      { erewrite imap_ext; [exact Hin |]. intros k x _. simpl. f_equal. lia. }
      apply IH in Hin' as (k & x & Hk & Hx). exists (S k), x. split; [exact Hk |].
      replace (n + S k) with (S n + k) by lia. exact Hx.
    + intros ([|k] & x & Hk & Hx); simpl in Hk; [injection Hk as <-; left; rewrite Nat.add_0_r in Hx; exact Hx |].
      right. erewrite imap_ext; [apply (proj2 (IH (S n) it)); exists k, x; split; [exact Hk |] |].
      * replace (S n + k) with (n + S k) by lia. exact Hx.
      * intros j y _. simpl. f_equal. lia.
Qed.

Lemma gather_store0 (fs : FileSystem) (dirs : list string) :
  (gather fs store0 dirs).2 = gather_items fs 1 dirs ∧
  gather_post store0 dirs (gather fs store0 dirs).1.
Proof. exact (gather_foldl fs dirs store0 [] store0_wf). Qed.

Lemma elem_of_dir_items_mp4 (conf : loc) (w : list walk_entry) (it : WorkItem) :
  it ∈ dir_items conf w → endswith ".mp4" (video_path it) = true.
Proof.
  unfold dir_items. rewrite !list_elem_of_In, in_flat_map.
  intros ([[root ds] files] & _ & Hin). apply in_flat_map in Hin as (f & _ & Hf).
  destruct (endswith _ f) eqn:E; [| contradiction]. destruct Hf as [<-|[]].
  apply endswith_join, E.
Qed.

(** Where a gathered item's configuration lives, and what it holds. *)
Lemma gather_item_object (fs : FileSystem) (dirs : list string) (st' : Store)
    (items : list WorkItem) (it : WorkItem) :
  gather fs store0 dirs = (st', items) → it ∈ items →
  ∃ k d, dirs !! k = Some d ∧ it ∈ dir_items (S k) (os_walk fs d) ∧ config it = S k ∧
    objs st' !! config it
    = Some (with_language (Language.get_language_from_directory d) base_conf) ∧
    next_loc st' = S (length dirs).
Proof.
  intros Hg Hin. destruct (gather_store0 fs dirs) as [Hit (Hnext & _ & _ & Hnew)].
  rewrite Hg in Hit, Hnext, Hnew. simpl in Hit, Hnext, Hnew. subst items.
  apply elem_of_gather_items in Hin as (k & d & Hk & Hd).
  pose proof (dir_items_config _ _ _ Hd) as Hc.
  exists k, d. split_and!; try done. rewrite Hc. exact (Hnew k d Hk).
Qed.

(** ** The behaviour of the gathering loop *)

(** C17. After the loop, every work item references a configuration object
    holding the base configuration ([type] ["transcription"], operating
    point ["enhanced"]) with the language of a directory of the batch
    whose walk produced the item. *)
Theorem gather_config_language (fs : FileSystem) (dirs : list string)
    (st' : Store) (items : list WorkItem) (it : WorkItem) :
  gather fs store0 dirs = (st', items) → it ∈ items →
  ∃ k d, dirs !! k = Some d ∧ it ∈ dir_items (S k) (os_walk fs d) ∧
    objs st' !! config it
    = Some (with_language (Language.get_language_from_directory d) base_conf).
Proof.
  intros Hg Hin. destruct (gather_item_object fs dirs st' items it Hg Hin)
    as (k & d & Hk & Hd & _ & Hobj & _). eauto.
Qed.

Lemma gather_config_language_witness :
  ∃ k d, example_dirs !! k = Some d ∧
    {| video_path := "r/Channel 5/13 January/sub/b.mp4"; config := 1 |}
      ∈ dir_items (S k) (os_walk example_fs d) ∧
    objs (gather example_fs store0 example_dirs).1 !! 1
    = Some (with_language (Language.get_language_from_directory d) base_conf).
Proof.
  apply (gather_config_language example_fs example_dirs
           (gather example_fs store0 example_dirs).1
           (gather example_fs store0 example_dirs).2
           {| video_path := "r/Channel 5/13 January/sub/b.mp4"; config := 1 |}).
  - reflexivity.
  - elem_compute.
Defined.

Lemma gather_old_objects (fs : FileSystem) (dirs : list string) (st' : Store) items :
  gather fs store0 dirs = (st', items) → objs st' !! base_loc = Some base_conf.
Proof.
  intros Hg. destruct (gather_store0 fs dirs) as [_ (_ & _ & Hold & _)].
  rewrite Hg in Hold. simpl in Hold. rewrite Hold by (unfold base_loc; simpl; lia).
  reflexivity.
Qed.

(** C18. Deep-copy isolation (lines 86-87): the loop leaves the module's
    [base_conf] unchanged, and the items come in one block per directory,
    in the order of [dirs], each block the walk of its directory over one
    configuration object; writing a language through the configuration of
    an item of one block leaves the language every item of another block
    sees unchanged. *)
Theorem gather_isolation (fs : FileSystem) (dirs : list string) (st' : Store)
    (items : list WorkItem) :
  gather fs store0 dirs = (st', items) →
  objs st' !! base_loc = Some base_conf ∧
  ∃ blocks : list (list WorkItem),
    items = concat blocks ∧ length blocks = length dirs ∧
    (∀ k d b, dirs !! k = Some d → blocks !! k = Some b → ∃ l, b = dir_items l (os_walk fs d)) ∧
    (∀ k1 k2 b1 b2 it1 it2 lang, k1 ≠ k2 → blocks !! k1 = Some b1 → blocks !! k2 = Some b2 →
       it1 ∈ b1 → it2 ∈ b2 →
       Config.get_language (set_language st' (config it1) lang) (config it2)
       = Config.get_language st' (config it2)).
Proof.
  intros Hg. split; [exact (gather_old_objects _ _ _ _ Hg) |].
  destruct (gather_store0 fs dirs) as [Hit _]. rewrite Hg in Hit. cbn in Hit.
  exists (imap (λ k d, dir_items (S k) (os_walk fs d)) dirs). split_and!.
  - exact Hit.
  - apply length_imap.
  - intros k d b Hk Hb. rewrite list_lookup_imap, Hk in Hb. injection Hb as <-. by eexists.
  - intros k1 k2 b1 b2 it1 it2 lang Hne Hb1 Hb2 H1 H2.
    rewrite list_lookup_imap in Hb1, Hb2.
    destruct (dirs !! k1), (dirs !! k2); simplify_eq/=.
    rewrite (dir_items_config _ _ _ H1), (dir_items_config _ _ _ H2).
    unfold Config.get_language. rewrite set_language_lookup.
    case_decide; [lia | reflexivity].
Qed.

Lemma gather_isolation_witness :
  objs (gather example_fs store0 example_dirs).1 !! base_loc = Some base_conf ∧
  ∃ blocks : list (list WorkItem),
    (gather example_fs store0 example_dirs).2 = concat blocks ∧ length blocks = length example_dirs ∧
    (∀ k d b, example_dirs !! k = Some d → blocks !! k = Some b →
       ∃ l, b = dir_items l (os_walk example_fs d)) ∧
    (∀ k1 k2 b1 b2 it1 it2 lang, k1 ≠ k2 → blocks !! k1 = Some b1 → blocks !! k2 = Some b2 →
       it1 ∈ b1 → it2 ∈ b2 →
       Config.get_language (set_language (gather example_fs store0 example_dirs).1 (config it1) lang)
         (config it2)
       = Config.get_language (gather example_fs store0 example_dirs).1 (config it2)).
Proof. apply gather_isolation. reflexivity. Defined.

(** C19. Aliasing within a directory: the deep copy is made once per
    directory (line 86) and every item of that directory references the
    same dict (line 95), so a language written through one item's
    configuration is the language every other item of the directory sees.
    The spec's deep-copy property (section 8) asks for the opposite. *)
Theorem gather_shared_config (fs : FileSystem) (dirs : list string) (st' : Store)
    (items : list WorkItem) (k : nat) (d : string) (it1 it2 : WorkItem) (lang : string) :
  gather fs store0 dirs = (st', items) → dirs !! k = Some d →
  it1 ∈ dir_items (S k) (os_walk fs d) → it2 ∈ dir_items (S k) (os_walk fs d) →
  config it1 = config it2 ∧
  Config.get_language (set_language st' (config it1) lang) (config it2) = Some lang.
Proof.
  intros Hg Hk H1 H2. destruct (gather_store0 fs dirs) as [_ (_ & _ & _ & Hnew)].
  rewrite Hg in Hnew. simpl in Hnew.
  rewrite (dir_items_config _ _ _ H1), (dir_items_config _ _ _ H2).
  split; [reflexivity |]. unfold Config.get_language.
  rewrite set_language_lookup. case_decide; [| done].
  pose proof (Hnew k d Hk) as Hl. simpl in Hl. unfold loc in *. rewrite Hl. reflexivity.
Qed.

Lemma gather_shared_config_witness :
  1 = 1 ∧
  Config.get_language
    (set_language (gather example_fs store0 example_dirs).1 1 "ta") 1 = Some "ta".
Proof.
  exact (gather_shared_config example_fs example_dirs _ _ 0 "r/Channel 5/13 January"
           {| video_path := "r/Channel 5/13 January/a.mp4"; config := 1 |}
           {| video_path := "r/Channel 5/13 January/sub/b.mp4"; config := 1 |} "ta"
           eq_refl eq_refl
           ltac:(elem_compute)
           ltac:(elem_compute)).
Defined.

Lemma length_gather_items (fs : FileSystem) (dirs : list string) :
  ∀ n, length (gather_items fs n dirs)
       = list_sum (map (λ d, from_option mp4_count 0 (fs !! d)) dirs).
Proof.
  unfold gather_items. induction dirs as [|d ds IH]; intros n; [reflexivity |].
  rewrite imap_cons. simpl. rewrite length_app. f_equal.
  - unfold os_walk. destruct (fs !! d); [apply length_dir_items_walk | reflexivity].
  - rewrite <- (IH (S n)). do 2 f_equal. apply imap_ext. intros k x _. simpl. f_equal. lia.
Qed.

(** C21. One work item per [.mp4] file: the loop yields as many items as
    the walked trees hold files whose name ends in [.mp4]; a directory
    that does not exist contributes none. *)
Theorem gather_count (fs : FileSystem) (dirs : list string) :
  length (gather fs store0 dirs).2
  = list_sum (map (λ d, from_option mp4_count 0 (fs !! d)) dirs).
Proof. rewrite (proj1 (gather_store0 fs dirs)). apply length_gather_items. Qed.

(** C22. Every work item's [video_path] ends in [.mp4]. *)
Theorem gather_paths_mp4 (fs : FileSystem) (dirs : list string) (it : WorkItem) :
  it ∈ (gather fs store0 dirs).2 → endswith ".mp4" (video_path it) = true.
Proof.
  rewrite (proj1 (gather_store0 fs dirs)), elem_of_gather_items.
  intros (k & d & _ & Hd). exact (elem_of_dir_items_mp4 _ _ _ Hd).
Qed.

Lemma gather_paths_mp4_witness :
  endswith ".mp4" "r/Channel 5/13 January/sub/b.mp4" = true.
Proof.
  exact (gather_paths_mp4 example_fs example_dirs
           {| video_path := "r/Channel 5/13 January/sub/b.mp4"; config := 1 |}
           ltac:(elem_compute)).
Defined.

(** C20. Well-formedness of the batch: after the loop the object store is
    well formed (the base configuration allocated, nothing beyond the next
    fresh location), and every work item references an allocated
    configuration object whose language is set: no item carries a dangling
    reference or a configuration without a language. *)
Theorem gather_wf (fs : FileSystem) (dirs : list string) (st' : Store) (items : list WorkItem) :
  gather fs store0 dirs = (st', items) →
  store_wf st' ∧
  ∀ it, it ∈ items → config it < next_loc st' ∧ ∃ lang, Config.get_language st' (config it) = Some lang.
Proof.
  intros Hg. split.
  - destruct (gather_store0 fs dirs) as [_ (_ & Hwf & _)]. by rewrite Hg in Hwf.
  - intros it Hin. destruct (gather_item_object fs dirs st' items it Hg Hin)
      as (k & d & Hk & _ & Hc & Hobj & Hnext).
    apply lookup_lt_Some in Hk. split; [lia |].
    eexists. unfold Config.get_language. by rewrite Hobj.
Qed.

Lemma gather_wf_witness :
  store_wf (gather example_fs store0 example_dirs).1 ∧
  ∀ it, it ∈ (gather example_fs store0 example_dirs).2 →
    config it < next_loc (gather example_fs store0 example_dirs).1
    ∧ ∃ lang, Config.get_language (gather example_fs store0 example_dirs).1 (config it) = Some lang.
Proof. apply (gather_wf example_fs example_dirs). reflexivity. Defined.

End Discover.
