(* ===== verification/Client.v ===== *)
(** * The transcription service boundary (lines 6-8, 27-57)

    [BatchClient] is the remote API the script consumes.  Its operations
    are an interface, the class [TranscriptionClient]: each call returns a
    value or raises, and an [httpx.HTTPStatusError] carries the response's
    status code and body.  The printed lines of the whole script are one
    inductive type [Line], so that a run is a log.  [getTranscript] and
    [getJobIDs], the two single-job utilities, are modelled here. *)

From S2P Require Import Prelude PyStr Config.
Import Config.

Module Client.

(** The body of an error response, as [e.response.json()] sees it: a JSON
    object with or without a ["detail"] key, or a body [json()] cannot
    decode (or whose value has no [.get], e.g. a JSON array). *)
Inductive Body :=
  | JsonObject (detail : option string)
  | NotJsonObject.

(** The exceptions of the script: [HTTPStatusError] (line 8) and any other
    [Exception] (network errors, [OSError] of [open], [KeyError], ...). *)
Inductive Exc :=
  | HTTPStatusError (status_code : Z) (body : Body)
  | OtherError (message : string).

(** A call that returns an [A] or raises. *)
Definition Result (A : Type) : Type := Exc + A.

Record JobInfo := { job_id : string; data_name : string; created_at : string }.

(** The operations of [BatchClient] the script calls. *)
Class TranscriptionClient := {
  submit_job : string → JobConfig → Result string;
  wait_for_completion : string → string → Result string;
  get_job_result : string → string → Result string;
  list_jobs : Result (list JobInfo);
}.

(** Every [print] of the script, with the values it formats. *)
Inductive Line :=
  | LRetrievedOk                              (* line 33 *)
  | LSavedTo (path : string)                  (* lines 39, 124 *)
  | LJobNotFound (job : string)               (* line 42 *)
  | LInvalidApiKey                            (* line 44 *)
  | LJob (info : JobInfo)                     (* line 57 *)
  | LProcessing (video : string) (lang : string)   (* line 103 *)
  | LSubmitted (job : string) (video : string)     (* line 111 *)
  | LTranscriptRetrieved (video : string)     (* line 118 *)
  | LCheckApiKey                              (* line 127 *)
  | LDetail (detail : string)                 (* line 129 *)
  | LHttpError (video : string) (e : Exc)     (* line 131 *)
  | LErrorProcessing (video : string) (e : Exc)    (* line 133 *)
  | LThreadError (e : Exc)                    (* line 145 *)
  | LBanner (text : string)                   (* lines 167, 170, 173, 176 *)
  | LSleep (seconds : nat).                   (* line 171: time.sleep *)

(** The local files the script writes: path to UTF-8 content.  Whether
    [open(path, "w")] succeeds is a parameter [writable] of the functions
    that write (a missing directory or a permission makes it raise). *)
Abbreviation Files := (gmap string string).

(** The outcome of a call that the script does not catch. *)
Inductive Outcome := Returned | Raised (e : Exc).

#[export] Instance Body_eq_dec : EqDecision Body.
Proof. solve_decision. Defined.
#[export] Instance Exc_eq_dec : EqDecision Exc.
Proof. solve_decision. Defined.
#[export] Instance Outcome_eq_dec : EqDecision Outcome.
Proof. solve_decision. Defined.
#[export] Instance JobInfo_eq_dec : EqDecision JobInfo.
Proof. solve_decision. Defined.
#[export] Instance Line_eq_dec : EqDecision Line.
Proof. solve_decision. Defined.

Section Utilities.
Context `{TranscriptionClient} (writable : string → bool).

(** [open(path, "w").write(text)] *)
Definition write_file (files : Files) (path text : string) : Result Files :=
  if writable path then inr (<[path := text]> files)
  else inl (OtherError ("cannot open " +:+ path)).

(** Lines 27-46: fetch job ["00123"] as SRT and save it to ["00123.txt"];
    a 404 or 401 is reported, any other error propagates. *)
Definition getTranscript (files : Files) : list Line * Files * Outcome :=
  let job := "00123" in
  match get_job_result job "srt" with
  | inr transcript =>
      let txt_file_path := job +:+ ".txt" in
      match write_file files txt_file_path transcript with
      | inr files' => ([LRetrievedOk; LSavedTo txt_file_path], files', Returned)
      | inl e => ([LRetrievedOk], files, Raised e)
      end
  | inl (HTTPStatusError code body as e) =>
      if Z.eqb code 404 then ([LJobNotFound job], files, Returned)
      else if Z.eqb code 401 then ([LInvalidApiKey], files, Returned)
      else ([], files, Raised e)
  | inl e => ([], files, Raised e)
  end.

(** Lines 49-57: print every job when the list is non-empty. *)
Definition getJobIDs : list Line * Outcome :=
  match list_jobs with
  | inr jobs_list => (map LJob jobs_list, Returned)
  | inl e => ([], Raised e)
  end.

End Utilities.

(** A service for the examples: every job succeeds with a transcript named
    after it, except the submission of [bad], which raises [err]. *)
Definition mock_client (bad : string) (err : Exc) : TranscriptionClient := {|
  submit_job p _ := if String.eqb p bad then inl err else inr ("job:" +:+ p);
  wait_for_completion j _ := inr ("1\n00:00:00,000 --> 00:00:01,000\n" +:+ j);
  get_job_result j _ := inr j;
  list_jobs := inr [];
|}.

(** A service whose job queries fail with [err]. *)
Definition failing_client (err : Exc) : TranscriptionClient := {|
  submit_job p _ := inr ("job:" +:+ p);
  wait_for_completion j _ := inr j;
  get_job_result _ _ := inl err;
  list_jobs := inl err;
|}.

(** ** [getTranscript] *)

Section GetTranscript.
Context `{TranscriptionClient} (writable : string → bool).

(** C35. [getTranscript] reports a missing job (404) and a rejected key
    (401) and lets everything else propagate: it raises [e] exactly when
    [get_job_result] raised [e] and [e] is not one of those two, or when the
    retrieval succeeded and opening ["00123.txt"] raised [e]. *)
Theorem getTranscript_raises (files : Files) (e : Exc) :
  (getTranscript writable files).2 = Raised e ↔
  (get_job_result "00123" "srt" = inl e ∧
   ∀ b, e ≠ HTTPStatusError 404 b ∧ e ≠ HTTPStatusError 401 b) ∨
  (∃ t, get_job_result "00123" "srt" = inr t ∧ writable "00123.txt" = false ∧
        e = OtherError ("cannot open " +:+ "00123.txt")).
Proof.
  unfold getTranscript, write_file.
  destruct (get_job_result "00123" "srt") as [[code body | msg] | t]; cbn.
  - destruct (Z.eqb_spec code 404) as [-> | H4].
    { split; [discriminate |]. intros [[[= <-] Hn] | (? & ? & _)]; [| discriminate].
      by destruct (Hn body) as [[] _]. }
    destruct (Z.eqb_spec code 401) as [-> | H1].
    { split; [discriminate |]. intros [[[= <-] Hn] | (? & ? & _)]; [| discriminate].
      by destruct (Hn body) as [_ []]. }
    split; [intros [= <-]; left; split; [done | intros b; split; congruence] |].
    intros [[[= <-] _] | (? & ? & _)]; [done | discriminate].
  - split; [intros [= <-]; left; split; [done | intros b; split; discriminate] |].
    intros [[[= <-] _] | (? & ? & _)]; [done | discriminate].
  - destruct (writable _) eqn:Hw.
    + split; [discriminate |]. intros [[? _] | (? & _ & ? & _)]; [discriminate | congruence].
    + split; [intros [= <-]; right; by exists t |].
      intros [[? _] | (? & _ & _ & ->)]; [discriminate | done].
Qed.

(** C36. [getTranscript] writes no file but ["00123.txt"], whatever the
    service answers. *)
Theorem getTranscript_writes_only (files : Files) (p : string) :
  p ≠ "00123.txt" → (getTranscript writable files).1.2 !! p = files !! p.
Proof.
  intros Hp. unfold getTranscript, write_file.
  destruct (get_job_result "00123" "srt") as [[code body | msg] | t]; [| done |].
  - cbn. by case_ifs.
  - destruct (writable _); [| done]. cbn. by rewrite lookup_insert_ne.
Qed.

End GetTranscript.

Lemma getTranscript_writes_only_witness :
  (getTranscript (H := mock_client "" (OtherError "unused")) (λ _, true) ∅).1.2 !! "other.txt"
  = (∅ : Files) !! "other.txt".
Proof. apply getTranscript_writes_only. discriminate. Defined.

End Client.
