(* ===== verification/Worker.v ===== *)
(** * The per-file worker: [process_single_file] (lines 99-133)

    [process_single_file] is the body each pool thread runs on one work
    item: it prints the item's language (read through the item's shared
    configuration object), submits the job, waits for the SRT transcript
    and writes it next to the video; the [HTTPStatusError] handler and the
    [Exception] handler turn failures into printed lines.  It is given
    twice: as the function the code is ([process_single_file], the
    reference), and as a machine of four atomic steps cut at the two
    blocking remote calls and at the write ([task_step]), which is what
    the pool of [Pool] interleaves; [task_run_full] shows that the four
    steps run alone compute the reference. *)

From S2P Require Import Prelude PyStr Config Discover Client.
Import PyStr PosixPath PyStrFacts PosixPathFacts Config Discover Client.

Module Worker.

(** Line 121: [os.path.splitext(video_path)[0] + ".txt"]. *)
Definition transcript_path (video_path : string) : string :=
  (splitext video_path).1 +:+ ".txt".

(** The exception [e.response.json()] raises on a body that is not a JSON
    object, and the [KeyError] of line 103 on a config without language. *)
Definition json_error : Exc := OtherError "JSONDecodeError".
Definition key_error : Exc := OtherError "KeyError: 'language'".

(** Example inputs for the witnesses: the first video of the example tree of
    [Discover]. *)

Definition example_item : WorkItem :=
  {| video_path := "r/Channel 5/13 January/a.mp4"; config := 1 |}.

(** A service answering the submission of [example_item] with a 400 whose
    body is not JSON, and one where every call succeeds. *)
Definition bad_json_client : TranscriptionClient :=
  mock_client "r/Channel 5/13 January/a.mp4" (HTTPStatusError 400 NotJsonObject).
Definition ok_client : TranscriptionClient := mock_client "" (OtherError "unused").

Section Worker.
Context {client : TranscriptionClient} (writable : string → bool).

(** Lines 125-133: the two [except] clauses.  An exception raised inside
    the [HTTPStatusError] handler (by [json()] on line 129) is not caught by
    the sibling [except Exception] and leaves the function. *)
Definition handle (video_path : string) (e : Exc) : list Line * Outcome :=
  match e with
  | HTTPStatusError code body =>
      if Z.eqb code 401 then ([LCheckApiKey], Returned)
      else if Z.eqb code 400 then
        match body with
        | JsonObject detail => ([LDetail (default "Unknown error" detail)], Returned)
        | NotJsonObject => ([], Raised json_error)
        end
      else ([LHttpError video_path e], Returned)
  | OtherError _ => ([LErrorProcessing video_path e], Returned)
  end.

(** Lines 99-133, the reference: the printed lines, the files after the
    call, and whether the call returned or raised. *)
Definition process_single_file (st : Store) (files : Files) (file_info : WorkItem)
    : list Line * Files * Outcome :=
  let video_path := video_path file_info in
  match Config.get_language st (config file_info) with
  | None => ([], files, Raised key_error)
  | Some lang =>
      let conf := default base_conf (objs st !! config file_info) in
      let pre := [LProcessing video_path lang] in
      match submit_job video_path conf with
      | inl e => let '(ls, o) := handle video_path e in (pre ++ ls, files, o)
      | inr job_id =>
          let pre := pre ++ [LSubmitted job_id video_path] in
          match wait_for_completion job_id "srt" with
          | inl e => let '(ls, o) := handle video_path e in (pre ++ ls, files, o)
          | inr transcript =>
              let pre := pre ++ [LTranscriptRetrieved video_path] in
              let tp := transcript_path video_path in
              match write_file writable files tp transcript with
              | inr files' => (pre ++ [LSavedTo tp], files', Returned)
              | inl e => let '(ls, o) := handle video_path e in (pre ++ ls, files, o)
              end
          end
      end
  end.

(** Where a thread is in [process_single_file]: not started, blocked in
    [submit_job], blocked in [wait_for_completion] on the job id, holding
    the transcript before the write, or done. *)
Inductive Stage :=
  | Start
  | Submitting
  | Submitted (job_id : string)
  | Retrieved (transcript : string)
  | Finished (o : Outcome).

(** One atomic step of the thread: the lines it prints and the files after
    it.  A step runs from one blocking call's return to the next blocking
    call (section 5 of the spec): line 103's print before [submit_job],
    the submission's answer and line 111 before [wait_for_completion], the
    transcript and line 118 before the write, and the write with line 124
    (a write and the line reporting it are one step).  A [print] is one
    atomic line. *)
Definition task_step (st : Store) (file_info : WorkItem) (s : Stage) (files : Files)
    : Stage * list Line * Files :=
  let video_path := video_path file_info in
  match s with
  | Start =>
      match Config.get_language st (config file_info) with
      | None => (Finished (Raised key_error), [], files)
      | Some lang => (Submitting, [LProcessing video_path lang], files)
      end
  | Submitting =>
      let conf := default base_conf (objs st !! config file_info) in
      match submit_job video_path conf with
      | inl e => let '(ls, o) := handle video_path e in (Finished o, ls, files)
      | inr job_id => (Submitted job_id, [LSubmitted job_id video_path], files)
      end
  | Submitted job_id =>
      match wait_for_completion job_id "srt" with
      | inl e => let '(ls, o) := handle video_path e in (Finished o, ls, files)
      | inr transcript => (Retrieved transcript, [LTranscriptRetrieved video_path], files)
      end
  | Retrieved transcript =>
      let tp := transcript_path video_path in
      match write_file writable files tp transcript with
      | inr files' => (Finished Returned, [LSavedTo tp], files')
      | inl e => let '(ls, o) := handle video_path e in (Finished o, ls, files)
      end
  | Finished o => (Finished o, [], files)
  end.

(** The steps still to run from a stage: each step lowers it. *)
Definition stage_rank (s : Stage) : nat :=
  match s with
  | Start => 4 | Submitting => 3 | Submitted _ => 2 | Retrieved _ => 1 | Finished _ => 0
  end.

Definition is_finished (s : Stage) : bool :=
  match s with Finished _ => true | _ => false end.

(** Running the thread alone for [fuel] steps. *)
Fixpoint task_run (fuel : nat) (st : Store) (file_info : WorkItem) (s : Stage)
    (files : Files) : Stage * list Line * Files :=
  match fuel with
  | 0 => (s, [], files)
  | S n =>
      let '(s', ls, files') := task_step st file_info s files in
      let '(s'', ls', files'') := task_run n st file_info s' files' in
      (s'', ls ++ ls', files'')
  end.

(** ** Lemmas *)

Lemma str_app_inv_r (s1 s2 t : string) : s1 +:+ t = s2 +:+ t → s1 = s2.
Proof.
  intros E. assert (Hl : String.length s1 = String.length s2).
  { apply (f_equal String.length) in E. rewrite !str_length_app in E. lia. }
  rewrite <- (take_app s1 t), <- (take_app s2 t), E, Hl. reflexivity.
Qed.

(** C29. The transcript of [pre/stem.mp4], for a file name [stem] with a
    byte other than a dot, is [pre/stem.txt]: the sibling file of the spec. *)
Theorem transcript_path_media (pre stem : string) :
  rfind sep stem = None → exists_other extsep stem = true →
  transcript_path (pre +:+ String.String sep (stem +:+ ".mp4"))
  = pre +:+ String.String sep (stem +:+ ".txt").
Proof.
  intros Hs Ho. unfold transcript_path.
  pose proof (splitext_ext pre stem "mp4" Hs Ho eq_refl eq_refl) as E.
  change (String.String extsep "mp4") with ".mp4" in E. rewrite E. simpl fst.
  rewrite str_app_assoc. reflexivity.
Qed.

Lemma transcript_path_media_witness :
  transcript_path "r/Channel 5/13 January/sub/b.mp4" = "r/Channel 5/13 January/sub/b.txt".
Proof. exact (transcript_path_media "r/Channel 5/13 January/sub" "b" eq_refl eq_refl). Defined.

(** [splitext] keeps a file name made of one leading dot and "mp4" whole. *)
Lemma splitext_dot_mp4 (pre : string) :
  splitext (pre +:+ "/.mp4") = (pre +:+ "/.mp4", "").
Proof.
  unfold splitext, rfind_z.
  change (pre +:+ "/.mp4") with (pre +:+ String.String sep ".mp4").
  rewrite (rfind_app_last sep pre ".mp4" eq_refl).
  replace (pre +:+ String.String sep ".mp4") with ((pre +:+ String.String sep "") +:+ String.String extsep "mp4")
    by (rewrite str_app_assoc; reflexivity).
  rewrite (rfind_app_last extsep _ "mp4" eq_refl), str_length_app. cbn [String.length].
  replace (Z.to_nat (Z.of_nat (String.length pre + 1) - (Z.of_nat (String.length pre) + 1))) with 0
    by lia.
  cbn [skip_leading_dots]. rewrite andb_false_r. reflexivity.
Qed.

(** C30. Two different videos can share a transcript: in every folder
    [pre], [splitext] keeps the file name [.mp4] whole, so the videos
    [pre/.mp4] and [pre/.mp4.mp4] (both selected by line 92) are both
    transcribed to [pre/.mp4.txt], and their two threads write the same
    file ([Orchestrator.pool_last_writer] says which one is left). *)
Theorem transcript_path_collision (pre : string) :
  pre +:+ "/.mp4" ≠ pre +:+ "/.mp4.mp4" ∧
  transcript_path (pre +:+ "/.mp4") = pre +:+ "/.mp4.txt" ∧
  transcript_path (pre +:+ "/.mp4.mp4") = pre +:+ "/.mp4.txt".
Proof.
  split_and!.
  - intros Heq. apply (f_equal String.length) in Heq. rewrite !str_length_app in Heq. cbn in Heq. lia.
  - unfold transcript_path. rewrite splitext_dot_mp4. cbn [fst]. by rewrite str_app_assoc.
  - unfold transcript_path.
    change (pre +:+ "/.mp4.mp4") with (pre +:+ String.String sep (".mp4" +:+ String.String extsep "mp4")).
    rewrite (splitext_ext pre ".mp4" "mp4" eq_refl eq_refl eq_refl eq_refl). cbn [fst].
    by rewrite str_app_assoc.
Qed.

Lemma transcript_path_collision_witness :
  "r/.mp4" ≠ "r/.mp4.mp4" ∧ transcript_path "r/.mp4" = "r/.mp4.txt"
  ∧ transcript_path "r/.mp4.mp4" = "r/.mp4.txt".
Proof. exact (transcript_path_collision "r"). Defined.

(** C31. On ordinary file names the transcript path is injective: two
    videos [pre/stem.mp4] with different paths never share a transcript. *)
Theorem transcript_path_injective (pre1 stem1 pre2 stem2 : string) :
  rfind sep stem1 = None → exists_other extsep stem1 = true →
  rfind sep stem2 = None → exists_other extsep stem2 = true →
  transcript_path (pre1 +:+ String.String sep (stem1 +:+ ".mp4"))
  = transcript_path (pre2 +:+ String.String sep (stem2 +:+ ".mp4")) →
  pre1 +:+ String.String sep (stem1 +:+ ".mp4") = pre2 +:+ String.String sep (stem2 +:+ ".mp4").
Proof.
  intros H1 O1 H2 O2. rewrite !transcript_path_media by assumption.
  rewrite <- !str_app_cons, <- !str_app_assoc. intros E.
  apply str_app_inv_r in E. rewrite E. reflexivity.
Qed.

Lemma transcript_path_injective_witness :
  "r/a.mp4" = "r/a.mp4".
Proof.
  exact (transcript_path_injective "r" "a" "r" "a" eq_refl eq_refl eq_refl eq_refl eq_refl).
Defined.

Lemma handle_raised (video_path : string) (e e' : Exc) ls :
  handle video_path e = (ls, Raised e') → e' = json_error.
Proof.
  unfold handle. destruct e as [code body|msg]; [| discriminate].
  case_ifs; [discriminate | | discriminate].
  destruct body; [discriminate | congruence].
Qed.

Lemma task_step_finished (st : Store) (it : WorkItem) (o : Outcome) (files : Files) :
  task_step st it (Finished o) files = (Finished o, [], files).
Proof. reflexivity. Qed.

Lemma task_run_finished (n : nat) (st : Store) (it : WorkItem) (o : Outcome) (files : Files) :
  task_run n st it (Finished o) files = (Finished o, [], files).
Proof. induction n; simpl; [reflexivity |]. rewrite IHn. reflexivity. Qed.

Lemma task_step_rank (st : Store) (it : WorkItem) (s : Stage) (files : Files) :
  is_finished s = false → stage_rank (task_step st it s files).1.1 < stage_rank s.
Proof.
  intros Hs. destruct s; [| | | | discriminate];
    unfold task_step, write_file; repeat case_match; cbn; lia.
Qed.

Lemma task_run_add (n m : nat) (st : Store) (it : WorkItem) (s : Stage) (files : Files) :
  task_run (n + m) st it s files
  = let '(s', ls, files') := task_run n st it s files in
    let '(s'', ls', files'') := task_run m st it s' files' in
    (s'', ls ++ ls', files'').
Proof.
  revert s files. induction n as [|n IH]; intros s files; simpl.
  - destruct (task_run m st it s files) as [[??]?]. reflexivity.
  - destruct (task_step st it s files) as [[s1 ls1] f1]. rewrite IH.
    destruct (task_run n st it s1 f1) as [[s2 ls2] f2].
    destruct (task_run m st it s2 f2) as [[s3 ls3] f3]. rewrite app_assoc. reflexivity.
Qed.

Lemma task_run_full (st : Store) (it : WorkItem) (files : Files) :
  task_run 4 st it Start files
  = let '(ls, files', o) := process_single_file st files it in (Finished o, ls, files').
Proof.
  unfold process_single_file. cbn [task_run task_step].
  destruct (Config.get_language st (config it)); [cbn | reflexivity].
  destruct (submit_job _ _) as [e|j];
    [destruct (handle _ e); cbn; rewrite ?app_nil_r; reflexivity | cbn].
  destruct (wait_for_completion _ _) as [e|t];
    [destruct (handle _ e); cbn; rewrite ?app_nil_r; reflexivity | cbn].
  destruct (write_file _ _ _ _) as [e|f]; [destruct (handle _ e) |];
    cbn; rewrite ?app_nil_r; reflexivity.
Qed.

(** ** What a step does with the files

    A step's printed lines and next stage do not depend on the files, and
    its write is a union with a map of at most the item's transcript: the
    frame property on which the refinement of the pool rests. *)

Ltac task_step_cases :=
  unfold task_step, write_file; repeat case_match; cbn [fst snd] in *; simplify_eq;
  repeat match goal with
  | H : ?x = ?a, H' : ?x = ?b |- _ => rewrite H in H'; simplify_eq
  end.

Lemma task_step_out_files (st : Store) (it : WorkItem) (s : Stage) (f f' : Files) :
  (task_step st it s f).1 = (task_step st it s f').1.
Proof. task_step_cases; reflexivity. Qed.

Lemma task_step_files (st : Store) (it : WorkItem) (s : Stage) (f : Files) :
  (task_step st it s f).2 = (task_step st it s ∅).2 ∪ f.
Proof.
  task_step_cases; rewrite ?insert_empty, ?map_empty_union; [done.. | |];
    rewrite ?insert_empty; by rewrite ?insert_union_singleton_l, ?map_empty_union.
Qed.

(** Only the last step, the one that ends the item, writes. *)
Lemma task_step_nonfinal_files (st : Store) (it : WorkItem) (s : Stage) (f : Files) :
  is_finished (task_step st it s f).1.1 = false → (task_step st it s f).2 = f.
Proof. task_step_cases; done. Qed.

Lemma task_step_delta (st : Store) (it : WorkItem) (s : Stage) (k v : string) :
  (task_step st it s ∅).2 !! k = Some v → k = transcript_path (video_path it).
Proof.
  task_step_cases; intros Hk; rewrite ?lookup_empty in Hk; try discriminate;
    apply lookup_insert_Some in Hk as [[-> _] | [_ Hk]]; [done | by rewrite lookup_empty in Hk].
Qed.

Lemma task_run_files (n : nat) (st : Store) (it : WorkItem) (s : Stage) (f : Files) :
  (task_run n st it s f).1 = (task_run n st it s ∅).1 ∧
  (task_run n st it s f).2 = (task_run n st it s ∅).2 ∪ f.
Proof.
  revert s f. induction n as [|n IH]; intros s f; cbn [task_run fst snd];
    [by rewrite map_empty_union |].
  pose proof (task_step_out_files st it s f ∅) as Eo. pose proof (task_step_files st it s f) as Ef.
  destruct (task_step st it s f) as [[s1 l1] f1], (task_step st it s ∅) as [[s2 l2] f2].
  simpl in Eo, Ef. injection Eo as <- <-. subst f1.
  destruct (IH s1 (f2 ∪ f)) as [E1 E2], (IH s1 f2) as [E3 E4].
  destruct (task_run n st it s1 (f2 ∪ f)) as [[??]?], (task_run n st it s1 f2) as [[??]?],
    (task_run n st it s1 ∅) as [[??]?]. simpl in *.
  injection E1 as -> ->. injection E3 as -> ->. subst. by rewrite map_union_assoc.
Qed.

Lemma task_run_delta (n : nat) (st : Store) (it : WorkItem) (s : Stage) (k v : string) :
  (task_run n st it s ∅).2 !! k = Some v → k = transcript_path (video_path it).
Proof.
  revert s. induction n as [|n IH]; intros s; cbn [task_run fst snd]; [by rewrite lookup_empty |].
  pose proof (task_step_delta st it s k) as Hd.
  destruct (task_step st it s ∅) as [[s1 l1] f1] eqn:E.
  destruct (task_run_files n st it s1 f1) as [_ Ef].
  destruct (task_run n st it s1 f1) as [[??]?]. simpl in Ef |- *. subst.
  intros [Hk | [_ Hk]]%lookup_union_Some_raw; [exact (IH s1 Hk) | exact (Hd v Hk)].
Qed.

Lemma task_run_nonfinal_files (n : nat) (st : Store) (it : WorkItem) (s : Stage) (f : Files) :
  is_finished (task_run n st it s f).1.1 = false → (task_run n st it s f).2 = f.
Proof.
  revert s f. induction n as [|n IH]; intros s f; cbn [task_run]; [done |].
  pose proof (task_step_nonfinal_files st it s f) as Hs.
  destruct (task_step st it s f) as [[s1 l1] f1]. cbn [fst snd] in Hs.
  destruct (is_finished s1) eqn:E1.
  - destruct s1; try discriminate. by rewrite task_run_finished.
  - specialize (IH s1 f1). destruct (task_run n st it s1 f1) as [[??]?]. cbn in *.
    intros Hf. rewrite IH by done. by apply Hs.
Qed.

Lemma task_run_absorb (n m : nat) (st : Store) (it : WorkItem) (s : Stage) (f : Files) :
  is_finished (task_run n st it s f).1.1 = true →
  task_run (n + m) st it s f = task_run n st it s f.
Proof.
  rewrite task_run_add. destruct (task_run n st it s f) as [[[| | | | o] ls] f'];
    cbn; [discriminate.. |]. intros _. by rewrite task_run_finished, app_nil_r.
Qed.

(** The reference run of an item from any files is its run from no files,
    its write laid over them. *)
Lemma process_frame (st : Store) (it : WorkItem) (f : Files) :
  (process_single_file st f it).1.1 = (process_single_file st ∅ it).1.1 ∧
  (process_single_file st f it).2 = (process_single_file st ∅ it).2 ∧
  (process_single_file st f it).1.2 = (process_single_file st ∅ it).1.2 ∪ f.
Proof.
  pose proof (task_run_full st it f) as E1. pose proof (task_run_full st it ∅) as E2.
  destruct (task_run_files 4 st it Start f) as [Eo Ef].
  destruct (process_single_file st f it) as [[l1 f1] o1],
    (process_single_file st ∅ it) as [[l2 f2] o2].
  rewrite E1, E2 in Eo. rewrite E1, E2 in Ef. cbn in *. by simplify_eq.
Qed.

Lemma process_delta (st : Store) (it : WorkItem) (k v : string) :
  (process_single_file st ∅ it).1.2 !! k = Some v → k = transcript_path (video_path it).
Proof.
  pose proof (task_run_delta 4 st it Start k v) as Hd. rewrite task_run_full in Hd.
  destruct (process_single_file st ∅ it) as [[??]?]. exact Hd.
Qed.

(** With a language set, only the [json()] error escapes. *)
Lemma process_raised_lang (st : Store) (files : Files) (it : WorkItem) (lang : string) (e : Exc) :
  Config.get_language st (config it) = Some lang →
  (process_single_file st files it).2 = Raised e → e = json_error.
Proof.
  unfold process_single_file. intros Hl Hr. rewrite Hl in Hr.
  destruct (submit_job _ _) as [e1|j].
  { destruct (handle _ e1) as [ls o] eqn:Hh. simpl in Hr. subst o. eapply handle_raised, Hh. }
  destruct (wait_for_completion _ _) as [e1|t].
  { destruct (handle _ e1) as [ls o] eqn:Hh. simpl in Hr. subst o. eapply handle_raised, Hh. }
  destruct (write_file _ _ _ _) as [e1|f]; [| discriminate].
  destruct (handle _ e1) as [ls o] eqn:Hh. simpl in Hr. subst o. eapply handle_raised, Hh.
Qed.

(** ** The behaviour of one item *)

(** C12. The only exceptions that leave [process_single_file] are the
    [KeyError] of line 103 (a configuration without language) and the
    error of [e.response.json()] on a 400 response whose body is not a JSON
    object: every other failure is caught and printed. *)
Theorem process_raises_only (st : Store) (files : Files) (it : WorkItem) (e : Exc) :
  (process_single_file st files it).2 = Raised e →
  (Config.get_language st (config it) = None ∧ e = key_error) ∨ e = json_error.
Proof.
  intros Hr. destruct (Config.get_language st (config it)) as [lang|] eqn:Hl.
  - right. exact (process_raised_lang st files it lang e Hl Hr).
  - left. unfold process_single_file in Hr. rewrite Hl in Hr. by injection Hr as <-.
Qed.

(** C14. On the success path the item prints its four lines and the
    transcript is written, overwriting, at [transcript_path]. *)
Theorem process_success (st : Store) (files : Files) (it : WorkItem)
    (lang job transcript : string) :
  Config.get_language st (config it) = Some lang →
  submit_job (video_path it) (default base_conf (objs st !! config it)) = inr job →
  wait_for_completion job "srt" = inr transcript →
  writable (transcript_path (video_path it)) = true →
  process_single_file st files it
  = ([LProcessing (video_path it) lang; LSubmitted job (video_path it);
      LTranscriptRetrieved (video_path it); LSavedTo (transcript_path (video_path it))],
     <[transcript_path (video_path it) := transcript]> files, Returned).
Proof.
  intros Hl Hs Hw Hwr. unfold process_single_file, write_file.
  rewrite Hl, Hs, Hw, Hwr. reflexivity.
Qed.

(** C15. [process_single_file] writes no file but the transcript of its
    own video, whatever the service answers. *)
Theorem process_writes_only_transcript (st : Store) (files : Files) (it : WorkItem)
    (p : string) :
  p ≠ transcript_path (video_path it) →
  (process_single_file st files it).1.2 !! p = files !! p.
Proof.
  intros Hp. unfold process_single_file.
  destruct (Config.get_language st (config it)); [| reflexivity].
  destruct (submit_job _ _) as [e|j]; [destruct (handle _ e); reflexivity |].
  destruct (wait_for_completion _ _) as [e|t]; [destruct (handle _ e); reflexivity |].
  unfold write_file. destruct (writable _); [| destruct (handle _ _); reflexivity].
  simpl. rewrite lookup_insert_ne; [reflexivity | congruence].
Qed.

End Worker.

(** C13. On a gathered batch the [KeyError] cannot happen: every item's
    configuration has its language, so the only exception that can leave
    [process_single_file] for an item of the batch is the error of
    [json()] on a 400 response whose body is not a JSON object. *)
Theorem batch_raises_only_json `{TranscriptionClient} (writable : string → bool)
    (fs : FileSystem) (dirs : list string) (st' : Store) (items : list WorkItem)
    (it : WorkItem) (files : Files) (e : Exc) :
  gather fs store0 dirs = (st', items) → it ∈ items →
  (process_single_file writable st' files it).2 = Raised e → e = json_error.
Proof.
  intros Hg Hin. destruct (gather_item_object fs dirs st' items it Hg Hin)
    as (k & d & _ & _ & _ & Hobj & _).
  eapply (process_raised_lang writable st' files it).
  unfold Config.get_language. by rewrite Hobj.
Qed.

Lemma batch_raises_only_json_witness :
  json_error = json_error.
Proof.
  apply (batch_raises_only_json (H := bad_json_client) (λ _, true) example_fs example_dirs
           (gather example_fs store0 example_dirs).1 (gather example_fs store0 example_dirs).2
           example_item ∅ json_error); [reflexivity | elem_compute | vm_compute; reflexivity].
Defined.

Lemma process_raises_only_witness :
  (Config.get_language (gather example_fs store0 example_dirs).1 (config example_item) = None
   ∧ json_error = key_error) ∨ json_error = json_error.
Proof.
  apply (process_raises_only (client := bad_json_client) (λ _, true)
           (gather example_fs store0 example_dirs).1 ∅ example_item json_error).
  vm_compute. reflexivity.
Defined.

Lemma process_success_witness :
  process_single_file (client := ok_client) (λ _, true)
    (gather example_fs store0 example_dirs).1 ∅ example_item
  = ([LProcessing "r/Channel 5/13 January/a.mp4" "en";
      LSubmitted "job:r/Channel 5/13 January/a.mp4" "r/Channel 5/13 January/a.mp4";
      LTranscriptRetrieved "r/Channel 5/13 January/a.mp4";
      LSavedTo (transcript_path "r/Channel 5/13 January/a.mp4")],
     <[transcript_path "r/Channel 5/13 January/a.mp4" :=
         "1\n00:00:00,000 --> 00:00:01,000\n" +:+ "job:r/Channel 5/13 January/a.mp4"]> ∅,
     Returned).
Proof.
  apply (process_success (client := ok_client) (λ _, true)); vm_compute; reflexivity.
Defined.

Lemma process_writes_only_transcript_witness :
  (process_single_file (client := ok_client) (λ _, true)
     (gather example_fs store0 example_dirs).1 ∅ example_item).1.2 !! "r/other.txt"
  = (∅ : Files) !! "r/other.txt".
Proof.
  apply (process_writes_only_transcript (client := ok_client) (λ _, true)).
  vm_compute. discriminate.
Defined.

End Worker.
