(* ===== verification/Output.v ===== *)
(** * Standard output: the text of every [print]

    [Client.Line] records which [print] ran and the values it formats;
    [render] is the f-string of each one (lines 33-57, 103-133, 145 and
    167-176), and [stdout] the text a log writes, one line each, where
    [time.sleep] (line 171) writes nothing.  [str(e)] of an exception is a
    parameter [str_exc]: for an [HTTPStatusError] httpx builds it from the
    request's URL and the response's reason phrase, which the script does
    not see.

    The theorem: every line [process_single_file] prints names its video
    (contains the path without its extension), except the two lines of the
    401 and 400 handlers (lines 127 and 129), whose text is the same for
    every video; with the pool's interleaving their failures cannot be
    attributed to a video from the log. *)

From S2P Require Import Prelude PyStr Config Discover Client Worker.
Import PyStr PosixPath PosixPathFacts Config Discover Client Worker.

Module Output.

(** [t] contains [s]. *)
Definition str_infix (s t : string) : Prop := ∃ a b, t = a +:+ s +:+ b.

Section Render.
Context (str_exc : Exc → string).

(** The f-string of each [print]; [None] for [time.sleep], which prints
    nothing. *)
Definition render (l : Line) : option string :=
  match l with
  | LRetrievedOk => Some "Transcript retrieved successfully!"
  | LSavedTo path => Some ("Transcript saved to " +:+ path)
  | LJobNotFound job => Some ("Job " +:+ job +:+ " not found!")
  | LInvalidApiKey => Some "Invalid API key!"
  | LJob info => Some ("Job ID: " +:+ job_id info +:+ ", Data file name: " +:+ data_name info
                       +:+ ", created at:" +:+ created_at info)
  | LProcessing video lang => Some ("Processing file: " +:+ video +:+ " with language " +:+ lang)
  | LSubmitted job video =>
      Some ("Job " +:+ job +:+ " submitted for " +:+ video +:+ ", waiting for transcription...")
  | LTranscriptRetrieved video => Some ("Transcript retrieved for " +:+ video)
  | LCheckApiKey => Some "Invalid API key - Check your API_KEY!"
  | LDetail detail => Some detail
  | LHttpError video e => Some ("HTTP error for " +:+ video +:+ ": " +:+ str_exc e)
  | LErrorProcessing video e => Some ("Error processing " +:+ video +:+ ": " +:+ str_exc e)
  | LThreadError e => Some ("Error occurred in thread: " +:+ str_exc e)
  | LBanner text => Some text
  | LSleep _ => None
  end.

(** What a log writes to standard output: [print] ends each line with a
    newline. *)
Definition stdout (log : list Line) : string :=
  foldr (λ l out, from_option (λ s, s +:+ String.String "010" "") "" (render l) +:+ out) "" log.

End Render.

(** The lines [process_single_file] can print for the video [v]. *)
Definition worker_line (v : string) (l : Line) : Prop :=
  match l with
  | LProcessing v' _ | LSubmitted _ v' | LTranscriptRetrieved v'
  | LHttpError v' _ | LErrorProcessing v' _ => v' = v
  | LSavedTo path => path = transcript_path v
  | LCheckApiKey | LDetail _ => True
  | _ => False
  end.

(** ** Lemmas *)

Lemma handle_lines (v : string) (e : Exc) : Forall (worker_line v) (handle v e).1.
Proof. unfold handle. repeat case_match; cbn; repeat constructor. Qed.

Lemma process_lines `{TranscriptionClient} (writable : string → bool) (st : Store) (files : Files)
    (it : WorkItem) :
  Forall (worker_line (video_path it)) (process_single_file writable st files it).1.1.
Proof.
  unfold process_single_file. repeat (case_match; simplify_eq/=).
  all: rewrite ?Forall_app; repeat split; repeat (constructor; [by cbn |]); try constructor.
  all: match goal with H : handle _ ?e = _ |- _ =>
         pose proof (handle_lines (video_path it) e) as Hh; rewrite H in Hh; exact Hh end.
Qed.

Lemma str_infix_app_l (s t u : string) : str_infix s u → str_infix s (t +:+ u).
Proof. intros (a & b & ->). exists (t +:+ a), b. by rewrite str_app_assoc. Qed.

Lemma str_infix_app_r (s t u : string) : str_infix s t → str_infix s (t +:+ u).
Proof. intros (a & b & ->). exists a, (b +:+ u). by rewrite !str_app_assoc. Qed.

(** A path contains its root ([splitext_concat]). *)
Lemma str_infix_root (v : string) : str_infix (splitext v).1 v.
Proof. exists "", (splitext v).2. by rewrite str_app_nil_l, splitext_concat. Qed.

Lemma str_infix_refl (s : string) : str_infix s s.
Proof. exists "", "". by rewrite str_app_nil_l, str_app_nil_r. Qed.

#[local] Hint Resolve str_infix_app_l str_infix_app_r str_infix_root str_infix_refl : vta.

(** C16. Attribution of the worker's output: whatever the service answers
    and whatever [str(e)] is, every line [process_single_file] prints
    contains the path of its video without the extension, except the
    401 line (127) and the 400 diagnostic (129). *)
Theorem worker_lines_name_video `{TranscriptionClient} (str_exc : Exc → string)
    (writable : string → bool) (st : Store) (files : Files) (it : WorkItem) (l : Line) :
  l ∈ (process_single_file writable st files it).1.1 → l ≠ LCheckApiKey → (∀ d, l ≠ LDetail d) →
  ∃ s, render str_exc l = Some s ∧ str_infix (splitext (video_path it)).1 s.
Proof.
  intros Hl Hk Hd. pose proof (proj1 (Forall_forall _ _) (process_lines writable st files it) l Hl) as Hw.
  destruct l; cbn in Hw |- *; subst; try contradiction; try congruence;
    try by destruct (Hd _ eq_refl).
  all: eexists; split; [reflexivity | unfold transcript_path; eauto 6 with vta].
Qed.

Lemma worker_lines_name_video_witness :
  ∃ s, render (λ _, "") (LSavedTo "r/Channel 5/13 January/a.txt") = Some s
       ∧ str_infix (splitext (video_path example_item)).1 s.
Proof.
  apply (worker_lines_name_video (H := ok_client) (λ _, "") (λ _, true)
           (gather example_fs store0 example_dirs).1 ∅ example_item).
  - elem_compute.
  - discriminate.
  - intros d. discriminate.
Defined.

End Output.
