(* ===== verification/Pool.v ===== *)
(** * BatchOrchestrator: the thread pool (lines 135-145)

    [ThreadPoolExecutor(max_workers=8)] receives one future per work item,
    in list order (lines 137-140); its threads take the items from a FIFO
    queue, at most eight at a time, and each runs [process_single_file] as
    the four atomic steps of [Worker.task_step]; the threads interleave
    arbitrarily.  The main thread meanwhile iterates [as_completed]
    (lines 141-145): it yields each completed future once and prints the
    exception of a future that raised.  CPython yields the futures already
    done when [as_completed] starts in the order of a set and the later
    ones in completion order; the model lets it yield any completed future
    not yet yielded, which contains both.  The pool is a step relation on
    a [Pool] state; the [with] block exits when the queue, the threads and
    the collection are all drained ([final]).

    The theorems: at most eight items are in flight; no item is lost or
    duplicated; each item's outcome is [process_single_file]'s whatever the
    schedule (one item's failure does not touch the others); a state that
    is not final can always step and every step lowers a measure, so every
    run drains the pool, and when it has, [as_completed] has yielded
    exactly one outcome per item; the executable scheduler [pool_choice]
    is the step relation. *)

From S2P Require Import Prelude PyStr Config Discover Client Worker.
Import Config Discover Client Worker.

Module Pool.

Definition max_workers : nat := 8.

(** The executor's state: the indices of the futures still queued, the
    threads' items with their stage, the outcomes in completion order, the
    outcomes [as_completed] has yielded, in the order it yielded them, the
    files and the log. *)
Record Pool := {
  queue : list nat;
  running : list (nat * Stage);
  finished : list (nat * Outcome);
  collected : list (nat * Outcome);
  files : Files;
  log : list Line;
}.

(** Line 145: what the main thread prints for a future it collects. *)
Definition collect_lines (o : Outcome) : list Line :=
  match o with Returned => [] | Raised e => [LThreadError e] end.

Section Pool.
Context {client : TranscriptionClient} (writable : string → bool).
Context (st : Store) (items : list WorkItem).

(** Lines 136-140: every item submitted, no thread started yet. *)
Definition pool_init (files0 : Files) (log0 : list Line) : Pool := {|
  queue := seq 0 (length items); running := []; finished := [];
  collected := []; files := files0; log := log0 |}.

Inductive pool_step : Pool → Pool → Prop :=
  (** A thread takes the next queued item, when fewer than eight run. *)
  | step_start p i q :
      queue p = i :: q → length (running p) < max_workers →
      pool_step p {| queue := q; running := running p ++ [(i, Start)];
                     finished := finished p; collected := collected p;
                     files := files p; log := log p |}
  (** A thread runs one step of its item, which is not yet done. *)
  | step_advance p r1 r2 i s it s' ls files' :
      running p = r1 ++ (i, s) :: r2 → items !! i = Some it →
      task_step writable st it s (files p) = (s', ls, files') → is_finished s' = false →
      pool_step p {| queue := queue p; running := r1 ++ (i, s') :: r2;
                     finished := finished p; collected := collected p;
                     files := files'; log := log p ++ ls |}
  (** A thread runs the last step of its item; its future completes. *)
  | step_finish p r1 r2 i s it o ls files' :
      running p = r1 ++ (i, s) :: r2 → items !! i = Some it →
      task_step writable st it s (files p) = (Finished o, ls, files') →
      pool_step p {| queue := queue p; running := r1 ++ r2;
                     finished := finished p ++ [(i, o)]; collected := collected p;
                     files := files'; log := log p ++ ls |}
  (** Lines 141-145: [as_completed] yields a completed future it has not
      yielded yet, and the loop prints its exception.  The futures already
      done when [as_completed] starts come in the order of a set, the
      later ones in completion order; any order is allowed here. *)
  | step_collect p x :
      x ∈ finished p → x ∉ collected p →
      pool_step p {| queue := queue p; running := running p;
                     finished := finished p; collected := collected p ++ [x];
                     files := files p; log := log p ++ collect_lines x.2 |}.

Definition reachable (files0 : Files) (log0 : list Line) (p : Pool) : Prop :=
  rtc pool_step (pool_init files0 log0) p.

(** The [with] block of line 136 exits. *)
Definition final (p : Pool) : Prop :=
  queue p = [] ∧ running p = [] ∧ length (collected p) = length (finished p).

(** The work left: six per queued item, the remaining steps plus one per
    thread, one per completed future not yet collected. *)
Definition measure (p : Pool) : nat :=
  6 * length (queue p) + list_sum (map (λ r, S (stage_rank r.2)) (running p))
  + (length (finished p) - length (collected p)).

(** The stage an item reaches after [k] steps run alone, and its outcome
    run alone: the schedule-free reference of each thread. *)
Definition stage_after (it : WorkItem) (k : nat) : Stage :=
  (task_run writable k st it Start ∅).1.1.

Definition outcome_of (it : WorkItem) : Outcome :=
  (process_single_file writable st ∅ it).2.

(** A scheduler's choice: a free thread takes the next queued item, the
    [n]-th running thread runs one step, or [as_completed] yields the next
    completed future.  [pool_choice] is the executable step: it is exactly
    [pool_step] ([pool_choice_sound] and [pool_choice_complete]), so a schedule is a list of choices. *)
Inductive Choice := CStart | CRun (n : nat) | CCollect (n : nat).

(** The completed futures [as_completed] has not yielded yet. *)
Definition uncollected (p : Pool) : list (nat * Outcome) :=
  filter (λ x, x ∉ collected p) (finished p).

Definition pool_choice (c : Choice) (p : Pool) : option Pool :=
  match c with
  | CStart =>
      match queue p with
      | i :: q =>
          if length (running p) <? max_workers
          then Some {| queue := q; running := running p ++ [(i, Start)];
                       finished := finished p; collected := collected p;
                       files := files p; log := log p |}
          else None
      | [] => None
      end
  | CRun n =>
      match running p !! n with
      | None => None
      | Some (i, s) =>
          match items !! i with
          | None => None
          | Some it =>
              let '(s', ls, f') := task_step writable st it s (files p) in
              let r1 := take n (running p) in
              let r2 := drop (S n) (running p) in
              match s' with
              | Finished o =>
                  Some {| queue := queue p; running := r1 ++ r2;
                          finished := finished p ++ [(i, o)]; collected := collected p;
                          files := f'; log := log p ++ ls |}
              | _ =>
                  Some {| queue := queue p; running := r1 ++ (i, s') :: r2;
                          finished := finished p; collected := collected p;
                          files := f'; log := log p ++ ls |}
              end
          end
      end
  | CCollect n =>
      match uncollected p !! n with
      | Some x =>
          Some {| queue := queue p; running := running p;
                  finished := finished p; collected := collected p ++ [x];
                  files := files p; log := log p ++ collect_lines x.2 |}
      | None => None
      end
  end.

(** Running a schedule. *)
Fixpoint pool_sched (cs : list Choice) (p : Pool) : option Pool :=
  match cs with
  | [] => Some p
  | c :: cs => pool_choice c p ≫= pool_sched cs
  end.

(** One deterministic schedule, for running examples: start a thread when
    one is free, else run the oldest thread one step, else collect. *)
Definition pool_next (p : Pool) : option Pool :=
  match queue p, running p with
  | _ :: _, _ =>
      if length (running p) <? max_workers then pool_choice CStart p
      else pool_choice (CRun 0) p
  | [], _ :: _ => pool_choice (CRun 0) p
  | [], [] => pool_choice (CCollect 0) p
  end.

Fixpoint pool_run (fuel : nat) (p : Pool) : Pool :=
  match fuel with
  | 0 => p
  | S n => match pool_next p with Some p' => pool_run n p' | None => p end
  end.

(** The invariant of the pool. *)
Record pool_inv (p : Pool) : Prop := {
  inv_bound : length (running p) ≤ max_workers;
  inv_perm : queue p ++ map fst (running p) ++ map fst (finished p)
             ≡ₚ seq 0 (length items);
  inv_collected : ∀ x, x ∈ collected p → x ∈ finished p;
  inv_collected_nodup : NoDup (collected p);
  inv_running : ∀ i s, (i, s) ∈ running p →
    ∃ it k, items !! i = Some it ∧ s = stage_after it k ∧ is_finished s = false;
  inv_finished : ∀ i o, (i, o) ∈ finished p →
    ∃ it, items !! i = Some it ∧ o = outcome_of it;
}.

(** ** Lemmas on one thread *)

Lemma task_step_stage_files (it : WorkItem) (s : Stage) (f f' : Files) :
  (task_step writable st it s f).1.1 = (task_step writable st it s f').1.1.
Proof. by rewrite (task_step_out_files writable st it s f f'). Qed.

Lemma stage_after_S (it : WorkItem) (k : nat) (f : Files) :
  stage_after it (S k) = (task_step writable st it (stage_after it k) f).1.1.
Proof.
  unfold stage_after. rewrite <- Nat.add_1_r, task_run_add.
  destruct (task_run writable k st it Start ∅) as [[s1 l1] f1]. simpl.
  destruct (task_step writable st it s1 f1) as [[s2 l2] f2] eqn:E.
  rewrite (task_step_stage_files it s1 f f1), E. reflexivity.
Qed.

Lemma stage_after_finished (it : WorkItem) (k m : nat) (o : Outcome) :
  stage_after it k = Finished o → stage_after it (k + m) = Finished o.
Proof.
  unfold stage_after. rewrite task_run_add.
  destruct (task_run writable k st it Start ∅) as [[s1 l1] f1]. simpl. intros ->.
  rewrite task_run_finished. reflexivity.
Qed.

Lemma stage_after_outcome (it : WorkItem) (k : nat) (o : Outcome) :
  stage_after it k = Finished o → o = outcome_of it.
Proof.
  intros Hk. pose proof (stage_after_finished it k 4 o Hk) as H.
  unfold stage_after in H. rewrite Nat.add_comm, task_run_add, task_run_full in H.
  unfold outcome_of. destruct (process_single_file writable st ∅ it) as [[ls f] o'].
  cbn in H. rewrite task_run_finished in H. cbn in H |- *. congruence.
Qed.

(** ** The executable scheduler is the step relation *)

Lemma pool_choice_sound (c : Choice) (p p' : Pool) :
  pool_choice c p = Some p' → pool_step p p'.
Proof.
  destruct c as [| n | n]; simpl.
  - destruct (queue p) as [|i q] eqn:Hq; [discriminate |].
    destruct (Nat.ltb_spec (length (running p)) max_workers); [| discriminate].
    intros [= <-]. by eapply step_start.
  - destruct (running p !! n) as [[i s]|] eqn:Hn; [| discriminate].
    destruct (items !! i) as [it|] eqn:Hit; [| discriminate].
    destruct (task_step writable st it s (files p)) as [[s' ls] f'] eqn:E.
    pose proof (take_drop_middle _ _ _ Hn) as Hr. symmetry in Hr.
    destruct s' as [| | j | t | o]; intros [= <-];
      [eapply step_advance | eapply step_advance | eapply step_advance | eapply step_advance
      | eapply step_finish];
      eauto.
  - destruct (uncollected p !! n) as [x|] eqn:Hx; [| discriminate].
    apply list_elem_of_lookup_2, list_elem_of_filter in Hx as [Hn Hin].
    intros [= <-]. by apply step_collect.
Qed.

Lemma pool_choice_complete (p p' : Pool) :
  pool_step p p' → ∃ c, pool_choice c p = Some p'.
Proof.
  destruct 1 as [p i q Hq Hlt | p r1 r2 i s it s' ls f' Hr Hit E Hfin
                 | p r1 r2 i s it o ls f' Hr Hit E | p x Hin Hn].
  - exists CStart. simpl. rewrite Hq. by destruct (Nat.ltb_spec (length (running p)) max_workers); [| lia].
  - exists (CRun (length r1)). simpl. rewrite Hr, list_lookup_middle, Hit, E by done.
    rewrite take_app_length, drop_S_middle. by destruct s'.
  - exists (CRun (length r1)). simpl. rewrite Hr, list_lookup_middle, Hit, E by done.
    by rewrite take_app_length, drop_S_middle.
  - assert (Hx : x ∈ uncollected p) by (by apply list_elem_of_filter).
    apply list_elem_of_lookup_1 in Hx as [n Hx]. exists (CCollect n). simpl. by rewrite Hx.
Qed.

Lemma pool_sched_rtc (cs : list Choice) (p p' : Pool) :
  pool_sched cs p = Some p' → rtc pool_step p p'.
Proof.
  revert p. induction cs as [|c cs IH]; intros p; simpl; [intros [= <-]; apply rtc_refl |].
  destruct (pool_choice c p) as [p1|] eqn:E; simpl; [| discriminate].
  intros H. eapply rtc_l; [apply (pool_choice_sound c), E | exact (IH _ H)].
Qed.

Lemma pool_next_sound (p p' : Pool) : pool_next p = Some p' → pool_step p p'.
Proof.
  unfold pool_next. destruct (queue p), (running p); try case_match;
    apply pool_choice_sound.
Qed.

Lemma pool_run_rtc (n : nat) (p : Pool) : rtc pool_step p (pool_run n p).
Proof.
  revert p. induction n as [|n IH]; intros p; simpl; [apply rtc_refl |].
  destruct (pool_next p) eqn:E; [| apply rtc_refl].
  eapply rtc_l; [apply pool_next_sound, E | apply IH].
Qed.

(** ** The invariant holds initially and is preserved by every step *)

Lemma pool_inv_init (files0 : Files) (log0 : list Line) : pool_inv (pool_init files0 log0).
Proof.
  split; simpl; try lia.
  - rewrite !app_nil_r. reflexivity.
  - intros x Hin. inversion Hin.
  - constructor.
  - intros i s Hin. inversion Hin.
  - intros i o Hin. inversion Hin.
Qed.

Lemma inv_index (p : Pool) (i : nat) :
  pool_inv p → i ∈ queue p ++ map fst (running p) ++ map fst (finished p) →
  ∃ it, items !! i = Some it.
Proof.
  intros Hinv Hin. rewrite (inv_perm _ Hinv), elem_of_seq in Hin.
  apply lookup_lt_is_Some_2. lia.
Qed.

Lemma pool_inv_start (p : Pool) (i : nat) (q : list nat) :
  pool_inv p → queue p = i :: q → length (running p) < max_workers →
  pool_inv {| queue := q; running := running p ++ [(i, Start)];
              finished := finished p; collected := collected p;
              files := files p; log := log p |}.
Proof.
  intros Hinv Hq Hlt. destruct (inv_index p i Hinv) as [it Hit].
  { rewrite Hq. left. }
  split; simpl.
  - rewrite length_app. simpl. lia.
  - rewrite <- (inv_perm _ Hinv), Hq, map_app. simpl. solve_Permutation.
  - exact (inv_collected _ Hinv).
  - exact (inv_collected_nodup _ Hinv).
  - intros j s' [Hin | Hin%list_elem_of_singleton]%elem_of_app.
    + exact (inv_running _ Hinv j s' Hin).
    + injection Hin as -> ->. exists it, 0. auto.
  - exact (inv_finished _ Hinv).
Qed.

Lemma running_split_inv (p : Pool) r1 r2 i s :
  pool_inv p → running p = r1 ++ (i, s) :: r2 →
  ∃ it k, items !! i = Some it ∧ s = stage_after it k ∧ is_finished s = false.
Proof.
  intros Hinv Hr. apply (inv_running _ Hinv). rewrite Hr. set_solver.
Qed.

Lemma pool_inv_advance (p : Pool) r1 r2 i s it s' ls files' :
  pool_inv p → running p = r1 ++ (i, s) :: r2 → items !! i = Some it →
  task_step writable st it s (files p) = (s', ls, files') → is_finished s' = false →
  pool_inv {| queue := queue p; running := r1 ++ (i, s') :: r2;
              finished := finished p; collected := collected p;
              files := files'; log := log p ++ ls |}.
Proof.
  intros Hinv Hr Hit Hstep Hfin.
  destruct (running_split_inv p r1 r2 i s Hinv Hr) as (it' & k & Hit' & -> & _).
  rewrite Hit in Hit'. injection Hit' as <-.
  split; simpl.
  - pose proof (inv_bound _ Hinv) as Hb. rewrite Hr, !length_app in Hb.
    rewrite length_app. simpl in *. lia.
  - rewrite <- (inv_perm _ Hinv), Hr, !map_app. reflexivity.
  - exact (inv_collected _ Hinv).
  - exact (inv_collected_nodup _ Hinv).
  - intros j s2 Hin. apply elem_of_app in Hin as [Hin | [Heq | Hin]%elem_of_cons].
    + apply (inv_running _ Hinv). rewrite Hr. set_solver.
    + injection Heq as -> ->. exists it, (S k). split; [exact Hit |]. split; [| exact Hfin].
      rewrite (stage_after_S it k (files p)), Hstep. reflexivity.
    + apply (inv_running _ Hinv). rewrite Hr. set_solver.
  - exact (inv_finished _ Hinv).
Qed.

Lemma pool_inv_finish (p : Pool) r1 r2 i s it o ls files' :
  pool_inv p → running p = r1 ++ (i, s) :: r2 → items !! i = Some it →
  task_step writable st it s (files p) = (Finished o, ls, files') →
  pool_inv {| queue := queue p; running := r1 ++ r2;
              finished := finished p ++ [(i, o)]; collected := collected p;
              files := files'; log := log p ++ ls |}.
Proof.
  intros Hinv Hr Hit Hstep.
  destruct (running_split_inv p r1 r2 i s Hinv Hr) as (it' & k & Hit' & -> & _).
  rewrite Hit in Hit'. injection Hit' as <-.
  split; simpl.
  - pose proof (inv_bound _ Hinv) as Hb. rewrite Hr, !length_app in Hb.
    rewrite length_app. simpl in *. lia.
  - rewrite <- (inv_perm _ Hinv), Hr, !map_app. simpl. solve_Permutation.
  - intros x Hx. apply elem_of_app. left. exact (inv_collected _ Hinv x Hx).
  - exact (inv_collected_nodup _ Hinv).
  - intros j s2 Hin. apply (inv_running _ Hinv). rewrite Hr. set_solver.
  - intros j o2 [Hin | Hin%list_elem_of_singleton]%elem_of_app.
    + exact (inv_finished _ Hinv j o2 Hin).
    + injection Hin as -> ->. exists it. split; [exact Hit |].
      apply (stage_after_outcome it (S k)).
      rewrite (stage_after_S it k (files p)), Hstep. reflexivity.
Qed.

Lemma pool_inv_collect (p : Pool) x :
  pool_inv p → x ∈ finished p → x ∉ collected p →
  pool_inv {| queue := queue p; running := running p;
              finished := finished p; collected := collected p ++ [x];
              files := files p; log := log p ++ collect_lines x.2 |}.
Proof.
  intros Hinv Hin Hn. split; simpl; try apply Hinv.
  - intros y [Hy | ->%list_elem_of_singleton]%elem_of_app; [exact (inv_collected _ Hinv y Hy) | done].
  - apply NoDup_app. split_and!; [apply Hinv | set_solver | apply NoDup_singleton].
Qed.

Lemma pool_inv_step (p p' : Pool) : pool_inv p → pool_step p p' → pool_inv p'.
Proof.
  intros Hinv Hs. destruct Hs.
  - eapply pool_inv_start; eauto.
  - eapply pool_inv_advance; eauto.
  - eapply pool_inv_finish; eauto.
  - eapply pool_inv_collect; eauto.
Qed.

Lemma reachable_inv (files0 : Files) (log0 : list Line) (p : Pool) :
  reachable files0 log0 p → pool_inv p.
Proof.
  unfold reachable. intros Hr. remember (pool_init files0 log0) as p0 eqn:E.
  assert (H0 : pool_inv p0) by (subst; apply pool_inv_init).
  clear E. induction Hr; eauto using pool_inv_step.
Qed.

(** ** What [as_completed] has yielded *)

Lemma finished_nodup (p : Pool) : pool_inv p → NoDup (finished p).
Proof.
  intros Hinv. assert (Hnd : NoDup (queue p ++ map fst (running p) ++ map fst (finished p)))
    by (rewrite (inv_perm _ Hinv); apply NoDup_seq).
  apply NoDup_app in Hnd as (_ & _ & Hnd). apply NoDup_app in Hnd as (_ & _ & Hnd).
  by apply NoDup_ListNoDup, (NoDup_map_inv fst), NoDup_ListNoDup.
Qed.

Lemma collected_lt (p : Pool) (x : nat * Outcome) :
  pool_inv p → x ∈ finished p → x ∉ collected p → length (collected p) < length (finished p).
Proof.
  intros Hinv Hin Hn. apply (submseteq_length (x :: collected p)), NoDup_submseteq.
  - apply NoDup_cons. split; [done | apply Hinv].
  - intros y [-> | Hy]%elem_of_cons; [done | exact (inv_collected _ Hinv y Hy)].
Qed.

(** Unless every completed future has been yielded, one is left to yield. *)
Lemma collect_or_done (p : Pool) :
  pool_inv p →
  (∃ x, x ∈ finished p ∧ x ∉ collected p) ∨ length (collected p) = length (finished p).
Proof.
  intros Hinv. destruct (uncollected p) as [|x xs] eqn:Hu.
  - right. apply Nat.le_antisymm.
    + apply submseteq_length, NoDup_submseteq; [apply Hinv | exact (inv_collected _ Hinv)].
    + apply submseteq_length, NoDup_submseteq; [by apply finished_nodup |].
      intros y Hy. destruct (decide (y ∈ collected p)) as [| Hn]; [done |].
      assert (Hy' : y ∈ uncollected p) by (by apply list_elem_of_filter).
      rewrite Hu in Hy'. by apply elem_of_nil in Hy'.
  - left. exists x. assert (Hx : x ∈ uncollected p) by (rewrite Hu; left).
    apply list_elem_of_filter in Hx as [Hn Hin]. done.
Qed.

Lemma final_collected_perm (p : Pool) : pool_inv p → final p → collected p ≡ₚ finished p.
Proof.
  intros Hinv (_ & _ & Hl). apply submseteq_length_Permutation; [| lia].
  apply NoDup_submseteq; [apply Hinv | exact (inv_collected _ Hinv)].
Qed.

(** ** Progress and the measure *)

Lemma rank_pos (s : Stage) : is_finished s = false → 1 ≤ stage_rank s.
Proof. destruct s; simpl; [lia.. | discriminate]. Qed.

Lemma run_step_exists (p : Pool) r1 r2 i s :
  pool_inv p → running p = r1 ++ (i, s) :: r2 → ∃ p', pool_step p p'.
Proof.
  intros Hinv Hr. destruct (running_split_inv p r1 r2 i s Hinv Hr) as (it & k & Hit & _ & _).
  destruct (task_step writable st it s (files p)) as [[s' ls] f'] eqn:E.
  destruct s' as [| | j | t | o];
    try (eexists; eapply step_advance; [exact Hr | exact Hit | exact E | reflexivity]).
  eexists. eapply step_finish; [exact Hr | exact Hit | exact E].
Qed.

Lemma sum_ranks_app (r1 r2 : list (nat * Stage)) :
  list_sum (map (λ r, S (stage_rank r.2)) (r1 ++ r2))
  = list_sum (map (λ r, S (stage_rank r.2)) r1) + list_sum (map (λ r, S (stage_rank r.2)) r2).
Proof. rewrite map_app, list_sum_app. reflexivity. Qed.

Lemma measure_step (p p' : Pool) : pool_inv p → pool_step p p' → measure p' < measure p.
Proof.
  intros Hinv Hs.
  destruct Hs as [p i q Hq Hlt | p r1 r2 i s it s' ls f' Hr Hit E Hfin
                 | p r1 r2 i s it o ls f' Hr Hit E | p x Hin Hn]; unfold measure; simpl.
  - rewrite Hq, sum_ranks_app. simpl. lia.
  - destruct (running_split_inv p r1 r2 i s Hinv Hr) as (it' & k & _ & _ & Hnf).
    pose proof (task_step_rank writable st it s (files p) Hnf) as Hrk. rewrite E in Hrk.
    simpl in Hrk. rewrite Hr, !sum_ranks_app. simpl. lia.
  - destruct (running_split_inv p r1 r2 i s Hinv Hr) as (it' & k & _ & _ & Hnf).
    pose proof (rank_pos s Hnf). rewrite Hr, !sum_ranks_app, length_app. simpl. lia.
  - pose proof (collected_lt p x Hinv Hin Hn). rewrite length_app. simpl. lia.
Qed.

Lemma pool_progress_inv (p : Pool) : pool_inv p → final p ∨ ∃ p', pool_step p p'.
Proof.
  intros Hinv.
  destruct (queue p) as [|i q] eqn:Hq.
  - destruct (running p) as [|[i s] rs] eqn:Hrun.
    + destruct (collect_or_done p Hinv) as [(x & Hin & Hn) | Hl].
      * right. eexists. by eapply step_collect.
      * left. split_and!; done.
    + right. apply (run_step_exists p [] rs i s Hinv Hrun).
  - right. destruct (decide (length (running p) < max_workers)) as [Hlt|Hge].
    + eexists. eapply step_start; eauto.
    + destruct (running p) as [|[j s] rs] eqn:Hrun; [simpl in Hge; unfold max_workers in Hge; lia |].
      apply (run_step_exists p [] rs j s Hinv Hrun).
Qed.

Lemma drains_inv (p : Pool) : pool_inv p → ∃ p', rtc pool_step p p' ∧ final p'.
Proof.
  remember (measure p) as n eqn:En. revert p En.
  induction n as [n IH] using lt_wf_ind. intros p -> Hinv.
  destruct (pool_progress_inv p Hinv) as [Hf | [p1 Hs]].
  - exists p. split; [apply rtc_refl | exact Hf].
  - destruct (IH (measure p1) (measure_step p p1 Hinv Hs) p1 eq_refl
                (pool_inv_step p p1 Hinv Hs)) as (p2 & Hr2 & Hf2).
    exists p2. split; [eapply rtc_l; eauto | exact Hf2].
Qed.

Lemma final_finished_perm (p : Pool) :
  pool_inv p → final p → map fst (finished p) ≡ₚ seq 0 (length items).
Proof.
  intros Hinv (Hq & Hrun & _). pose proof (inv_perm _ Hinv) as Hp.
  rewrite Hq, Hrun in Hp. exact Hp.
Qed.

Lemma final_outcomes_complete (p : Pool) :
  pool_inv p → final p → ∀ i it, items !! i = Some it → (i, outcome_of it) ∈ finished p.
Proof.
  intros Hinv Hfin i it Hit. pose proof (final_finished_perm p Hinv Hfin) as Hp.
  assert (Hi : i ∈ map fst (finished p)).
  { rewrite Hp, elem_of_seq. apply lookup_lt_Some in Hit. lia. }
  apply list_elem_of_In, in_map_iff in Hi as ([j o] & Hj & Hin).
  simpl in Hj. subst j. apply list_elem_of_In in Hin.
  destruct (inv_finished _ Hinv i o Hin) as (it' & Hit' & ->).
  rewrite Hit in Hit'. injection Hit' as ->. exact Hin.
Qed.

Lemma pool_step_log (p p' : Pool) : pool_step p p' → ∃ ls, log p' = log p ++ ls.
Proof. destruct 1; simpl; eauto. exists []. rewrite app_nil_r. reflexivity. Qed.

Lemma rtc_log (p p' : Pool) : rtc pool_step p p' → ∃ ls, log p' = log p ++ ls.
Proof.
  induction 1 as [p|p p1 p2 Hs _ IH]; [exists []; rewrite app_nil_r; reflexivity |].
  destruct (pool_step_log _ _ Hs) as [l1 E1]. destruct IH as [l2 E2].
  exists (l1 ++ l2). rewrite E2, E1, app_assoc. reflexivity.
Qed.

(** ** The behaviour of the pool *)

(** C9. Concurrency bound ([max_workers=8], line 136): in every reachable
    state of the pool at most eight items are in flight. *)
Theorem pool_bound (files0 : Files) (log0 : list Line) (p : Pool) :
  reachable files0 log0 p → length (running p) ≤ 8.
Proof. intros Hr. exact (inv_bound _ (reachable_inv _ _ _ Hr)). Qed.

(** C8. No item is dropped or duplicated: in every reachable state the
    queued, running and completed futures are a permutation of the
    submitted ones. *)
Theorem pool_conservation (files0 : Files) (log0 : list Line) (p : Pool) :
  reachable files0 log0 p →
  queue p ++ map fst (running p) ++ map fst (finished p) ≡ₚ seq 0 (length items).
Proof. intros Hr. exact (inv_perm _ (reachable_inv _ _ _ Hr)). Qed.

(** C7. Isolation: whatever the interleaving, each completed item's
    outcome is the outcome of [process_single_file] on that item alone, so
    a failure of one item changes no other item's outcome. *)
Theorem pool_outcome_independent (files0 : Files) (log0 : list Line) (p : Pool)
    (i : nat) (o : Outcome) :
  reachable files0 log0 p → (i, o) ∈ finished p →
  ∃ it, items !! i = Some it ∧ o = outcome_of it.
Proof. intros Hr Hin. exact (inv_finished _ (reachable_inv _ _ _ Hr) i o Hin). Qed.

(** C11. Termination: every step from a reachable state strictly lowers
    [measure], so no run of the pool is infinite. *)
Theorem pool_measure_decreases (files0 : Files) (log0 : list Line) (p p' : Pool) :
  reachable files0 log0 p → pool_step p p' → measure p' < measure p.
Proof. intros Hr. apply measure_step, (reachable_inv _ _ _ Hr). Qed.

(** C10. Liveness: from every reachable state some run drains the pool
    (with [pool_measure_decreases] every run does): the [with] block of line 136 is left. *)
Theorem pool_drains (files0 : Files) (log0 : list Line) (p : Pool) :
  reachable files0 log0 p → ∃ p', rtc pool_step p p' ∧ final p'.
Proof. intros Hr. apply drains_inv, (reachable_inv _ _ _ Hr). Qed.

(** C1. When the pool has drained, [as_completed] has yielded exactly one
    outcome for every submitted item, the one [process_single_file] gives
    it: [|outcomes| = |work items|], nothing dropped, nothing
    duplicated. *)
Theorem pool_final_complete (files0 : Files) (log0 : list Line) (p : Pool) :
  reachable files0 log0 p → final p →
  length (collected p) = length items ∧ NoDup (map fst (collected p)) ∧
  ∀ i it, items !! i = Some it → (i, outcome_of it) ∈ collected p.
Proof.
  intros Hr Hfin. pose proof (reachable_inv _ _ _ Hr) as Hinv.
  pose proof (final_collected_perm p Hinv Hfin) as Hc.
  pose proof (final_finished_perm p Hinv Hfin) as Hp.
  split; [| split].
  - rewrite Hc, <- (length_map fst), Hp, length_seq. reflexivity.
  - rewrite Hc, Hp. apply NoDup_seq.
  - intros i it Hit. rewrite Hc. exact (final_outcomes_complete p Hinv Hfin i it Hit).
Qed.

End Pool.

(** ** Witnesses: the example batch of [Discover] under the schedule *)

Definition ex_store : Store := (gather example_fs store0 example_dirs).1.
Definition ex_items : list WorkItem := (gather example_fs store0 example_dirs).2.

Definition example_pool (n : nat) : Pool :=
  pool_run (client := ok_client) (λ _, true) ex_store ex_items n
    (pool_init ex_items ∅ []).

Lemma example_pool_reachable (n : nat) :
  reachable (client := ok_client) (λ _, true) ex_store ex_items ∅ [] (example_pool n).
Proof. apply pool_run_rtc. Qed.

Lemma pool_bound_witness : length (running (example_pool 6)) ≤ 8.
Proof. exact (pool_bound (client := ok_client) _ _ _ _ _ _ (example_pool_reachable 6)). Defined.

Lemma pool_conservation_witness :
  queue (example_pool 6) ++ map fst (running (example_pool 6)) ++ map fst (finished (example_pool 6))
  ≡ₚ seq 0 (length ex_items).
Proof.
  exact (pool_conservation (client := ok_client) _ _ _ _ _ _ (example_pool_reachable 6)).
Defined.

Lemma pool_outcome_independent_witness :
  ∃ it, ex_items !! 0 = Some it
        ∧ Returned = outcome_of (client := ok_client) (λ _, true) ex_store it.
Proof.
  apply (pool_outcome_independent (client := ok_client) _ _ _ _ _ (example_pool 100) 0 Returned
           (example_pool_reachable 100)).
  elem_compute.
Defined.

Lemma pool_measure_decreases_witness : measure (example_pool 7) < measure (example_pool 6).
Proof.
  apply (pool_measure_decreases (client := ok_client) _ _ _ _ _ _ _ (example_pool_reachable 6)).
  apply pool_next_sound. vm_compute. reflexivity.
Defined.

Lemma pool_drains_witness :
  ∃ p', rtc (pool_step (client := ok_client) (λ _, true) ex_store ex_items)
          (pool_init ex_items ∅ []) p' ∧ final p'.
Proof. exact (pool_drains (client := ok_client) _ _ _ _ _ _ (rtc_refl _ _)). Defined.

Lemma pool_final_complete_witness :
  length (collected (example_pool 100)) = length ex_items
  ∧ NoDup (map fst (collected (example_pool 100)))
  ∧ ∀ i it, ex_items !! i = Some it →
      (i, outcome_of (client := ok_client) (λ _, true) ex_store it) ∈ collected (example_pool 100).
Proof.
  apply (pool_final_complete (client := ok_client) _ _ _ _ _ _ (example_pool_reachable 100)).
  vm_compute. split; [reflexivity | split; reflexivity].
Defined.

End Pool.
