(* ===== verification/Orchestrator.v ===== *)
(** * The contract of a batch and the pool's refinement of it

    [process_and_upload_transcripts_in_parallel] (lines 77-145) promises,
    for a batch of work items: one outcome per item, the one
    [process_single_file] gives it run alone; the transcripts written as if
    the items ran one after the other; and a log in which every item's
    lines appear, in its own order, interleaved with the other items' and
    with what [as_completed] prints.  [batch_spec] states this contract
    against the sequential reference (the items run in list order,
    [seq_files], [seq_outcomes]); [pool_refines_batch] proves that every
    drained run of the pool of [Pool] meets it when the items' transcript
    paths are distinct; without that condition [pool_last_writer] says
    which transcript a shared path keeps in every reachable state (the
    item that completed last).

    The proof is a simulation in the style of a refinement diagram: an
    invariant [trace_inv] of the pool's states relates the files to the
    writes of the completed items and the log to the lines each item has
    printed so far, and every step preserves it. *)

From S2P Require Import Prelude PyStr Config Discover Client Worker Pool.
Import Config Discover Client Worker Pool.

Module Orchestrator.

Section Orchestrator.
Context {client : TranscriptionClient} (writable : string → bool).
Context (st : Store) (items : list WorkItem).

(** ** The abstract contract *)

(** The lines an item prints when it runs alone. *)
Definition item_lines (it : WorkItem) : list Line := (process_single_file writable st ∅ it).1.1.

(** The sequential reference: the items processed one after the other, in
    list order, against the files. *)
Definition seq_files (files0 : Files) : Files :=
  foldl (λ f it, (process_single_file writable st f it).1.2) files0 items.

Definition seq_outcomes : list (nat * Outcome) :=
  imap (λ i it, (i, outcome_of writable st it)) items.

(** What the main thread prints while it collects the futures [outs]. *)
Definition collect_log (outs : list (nat * Outcome)) : list Line :=
  mjoin (map (collect_lines ∘ snd) outs).

(** The contract of a batch run from [files0] and [log0] that ends with
    [files'], [log'] and the outcomes [outs] in the order [as_completed] yields them. *)
Record batch_spec (files0 : Files) (log0 : list Line) (files' : Files) (log' : list Line)
    (outs : list (nat * Outcome)) : Prop := {
  spec_outcomes : outs ≡ₚ seq_outcomes;
  spec_files : files' = seq_files files0;
  spec_log : ∃ L, log' = log0 ++ L
                  ∧ interleaving ((item_lines <$> items) ++ [collect_log outs]) L;
}.

(** ** The simulation invariant *)

(** The lines an item has printed after [k] steps. *)
Definition lines_after (it : WorkItem) (k : nat) : list Line :=
  (task_run writable k st it Start ∅).1.2.

(** The files item [i] writes, laid over any files. *)
Definition delta (i : nat) : Files :=
  from_option (λ it, (process_single_file writable st ∅ it).1.2) ∅ (items !! i).

Definition pool_files (files0 : Files) (fin : list (nat * Outcome)) : Files :=
  foldl (λ f i, delta i ∪ f) files0 (map fst fin).

(** What item [i] has printed, [e], is what its place in the pool says. *)
Definition emitted_ok (p : Pool) (i : nat) (e : list Line) : Prop :=
  ∀ it, items !! i = Some it →
    (i ∈ queue p ∧ e = []) ∨
    (∃ s k, (i, s) ∈ running p ∧ s = stage_after writable st it k ∧ e = lines_after it k) ∨
    (∃ o, (i, o) ∈ finished p ∧ e = item_lines it).

Record trace_inv (files0 : Files) (log0 : list Line) (p : Pool) : Prop := {
  tinv_files : files p = pool_files files0 (finished p);
  tinv_log : ∃ L es, log p = log0 ++ L ∧ length es = length items
    ∧ interleaving (es ++ [collect_log (collected p)]) L
    ∧ ∀ i e, es !! i = Some e → emitted_ok p i e;
}.

(** ** One item: its lines and its write *)

Lemma task_run_S_split (it : WorkItem) (k : nat) :
  task_run writable (S k) st it Start ∅
  = let '(s, ls, f) := task_run writable k st it Start ∅ in
    let '(s', ls', f') := task_step writable st it s f in (s', ls ++ ls', f').
Proof.
  rewrite <- Nat.add_1_r, task_run_add.
  destruct (task_run writable k st it Start ∅) as [[s ls] f]. cbn [task_run].
  destruct (task_step writable st it s f) as [[??]?]. by rewrite app_nil_r.
Qed.

Lemma lines_after_S (it : WorkItem) (k : nat) (f : Files) :
  lines_after it (S k)
  = lines_after it k ++ (task_step writable st it (stage_after writable st it k) f).1.2.
Proof.
  unfold lines_after, stage_after. rewrite task_run_S_split.
  destruct (task_run writable k st it Start ∅) as [[s ls] f0]. cbn [fst snd].
  pose proof (task_step_out_files writable st it s f0 f) as E.
  destruct (task_step writable st it s f0) as [[??]?], (task_step writable st it s f) as [[??]?].
  cbn in *. by simplify_eq.
Qed.

(** Once an item is done, its run is the reference run. *)
Lemma task_run_done (it : WorkItem) (n : nat) :
  is_finished (stage_after writable st it n) = true →
  task_run writable n st it Start ∅ = task_run writable 4 st it Start ∅.
Proof.
  intros Hn. rewrite <- (task_run_absorb writable n 4) by exact Hn.
  rewrite Nat.add_comm, task_run_absorb; [done |].
  rewrite task_run_full. by destruct (process_single_file writable st ∅ it) as [[??]?].
Qed.

Lemma lines_after_done (it : WorkItem) (n : nat) :
  is_finished (stage_after writable st it n) = true → lines_after it n = item_lines it.
Proof.
  intros Hn. unfold lines_after, item_lines. rewrite task_run_done, task_run_full by done.
  by destruct (process_single_file writable st ∅ it) as [[??]?].
Qed.

(** The step that ends an item writes the item's files. *)
Lemma task_step_finish_delta (it : WorkItem) (k : nat) (f : Files) (o : Outcome) :
  is_finished (stage_after writable st it k) = false →
  (task_step writable st it (stage_after writable st it k) f).1.1 = Finished o →
  (task_step writable st it (stage_after writable st it k) ∅).2
  = (process_single_file writable st ∅ it).1.2.
Proof.
  intros Hk Hf. pose proof (task_run_done it (S k)) as Hd.
  pose proof (task_run_nonfinal_files writable k st it Start ∅ Hk) as H0.
  unfold stage_after in *. rewrite task_run_S_split in Hd.
  pose proof (task_run_full writable st it ∅) as E3.
  destruct (task_run writable k st it Start ∅) as [[s ls] f0]. cbn [fst snd] in H0, Hk, Hf |- *. subst f0.
  rewrite (task_step_out_files writable st it s f ∅) in Hf.
  destruct (task_step writable st it s ∅) as [[s' ls'] f']. cbn [fst snd] in Hf, Hd |- *. subst s'.
  rewrite E3 in Hd. destruct (process_single_file writable st ∅ it) as [[l2 f2] o2].
  specialize (Hd eq_refl). by simplify_eq.
Qed.

(** ** Where an item is

    The pool invariant's permutation makes the place of an item unique: a
    running item is neither queued nor completed, and runs once. *)

Lemma running_unique (p : Pool) (i : nat) (s : Stage) :
  pool_inv writable st items p → (i, s) ∈ running p →
  (i ∉ queue p) ∧ (∀ s', (i, s') ∈ running p → s' = s) ∧ (∀ o, (i, o) ∉ finished p).
Proof.
  intros Hinv Hin. pose proof (inv_perm _ _ _ _ Hinv) as Hp.
  assert (Hnd : NoDup (queue p ++ map fst (running p) ++ map fst (finished p)))
    by (rewrite Hp; apply NoDup_seq).
  apply NoDup_app in Hnd as (_ & Hd1 & Hnd). apply NoDup_app in Hnd as (Hr & Hd2 & _).
  pose proof (elem_of_map_fst _ _ _ Hin) as Hi. split; [| split].
  - intros Hq. apply (Hd1 i Hq), elem_of_app. by left.
  - intros s' Hin'. exact (NoDup_map_fst_eq _ i s' s Hr Hin' Hin).
  - intros o Ho. exact (Hd2 i Hi (elem_of_map_fst _ _ _ Ho)).
Qed.

Lemma emitted_running (p : Pool) (i : nat) (s : Stage) (it : WorkItem) (e : list Line) :
  pool_inv writable st items p → (i, s) ∈ running p → items !! i = Some it →
  emitted_ok p i e → ∃ k, s = stage_after writable st it k ∧ e = lines_after it k.
Proof.
  intros Hinv Hin Hit Hok. destruct (running_unique p i s Hinv Hin) as (Hq & Hr & Hf).
  destruct (Hok it Hit) as [[Hq' _] | [(s' & k & Hin' & -> & ->) | (o & Ho & _)]].
  - by destruct Hq.
  - exists k. by rewrite (Hr _ Hin').
  - by destruct (Hf o).
Qed.

Lemma emitted_ok_transfer (p p' : Pool) (j : nat) (e : list Line) :
  (j ∈ queue p → j ∈ queue p') → (∀ s, (j, s) ∈ running p → (j, s) ∈ running p') →
  (∀ o, (j, o) ∈ finished p → (j, o) ∈ finished p') → emitted_ok p j e → emitted_ok p' j e.
Proof.
  intros Hq Hr Hf Hok it Hit.
  destruct (Hok it Hit) as [[? ?] | [(s & k & ? & ? & ?) | (o & ? & ?)]]; eauto 10.
Qed.

(** ** The invariant holds initially and every step preserves it *)

Lemma trace_inv_init (files0 : Files) (log0 : list Line) :
  trace_inv files0 log0 (pool_init items files0 log0).
Proof.
  split; [done |]. exists [], (replicate (length items) []). cbn.
  rewrite app_nil_r, length_replicate, <- replicate_S_end. split_and!; [done | done | constructor |].
  intros i e [-> Hi]%lookup_replicate it _. left. split; [| done]. apply elem_of_seq. lia.
Qed.

Lemma trace_inv_start (files0 : Files) (log0 : list Line) (p : Pool) (i : nat) (q : list nat) :
  trace_inv files0 log0 p → queue p = i :: q →
  trace_inv files0 log0 {| queue := q; running := running p ++ [(i, Start)];
                           finished := finished p; collected := collected p;
                           files := files p; log := log p |}.
Proof.
  intros [Hf (L & es & Hl & Hlen & Hil & Hok)] Hq. split; [exact Hf |].
  exists L, es. cbn. split_and!; [done.. |]. intros j e Hj.
  destruct (decide (j = i)) as [-> | Hne].
  - intros it Hit. right. destruct (Hok i e Hj it Hit) as [[_ ->] | [(s & k & ? & ? & ?) | ?]].
    + left. exists Start, 0. split_and!; [set_solver | done | done].
    + left. exists s, k. split_and!; [set_solver | done | done].
    + by right.
  - apply (emitted_ok_transfer p); [| set_solver | done | exact (Hok j e Hj)].
    rewrite Hq. cbn. set_solver.
Qed.

Lemma trace_inv_advance (files0 : Files) (log0 : list Line) (p : Pool) r1 r2 i s it s' ls files' :
  pool_inv writable st items p → trace_inv files0 log0 p →
  running p = r1 ++ (i, s) :: r2 → items !! i = Some it →
  task_step writable st it s (files p) = (s', ls, files') → is_finished s' = false →
  trace_inv files0 log0 {| queue := queue p; running := r1 ++ (i, s') :: r2;
                           finished := finished p; collected := collected p;
                           files := files'; log := log p ++ ls |}.
Proof.
  intros Hinv [Hf (L & es & Hl & Hlen & Hil & Hok)] Hr Hit E Hfin.
  assert (Hin : (i, s) ∈ running p) by (rewrite Hr; set_solver).
  assert (Hi : i < length es) by (rewrite Hlen; by eapply lookup_lt_Some).
  destruct (lookup_lt_is_Some_2 es i Hi) as [e He].
  destruct (emitted_running p i s it e Hinv Hin Hit (Hok i e He)) as (k & -> & ->).
  split; cbn [files finished log queue running collected].
  - pose proof (task_step_nonfinal_files writable st it (stage_after writable st it k) (files p))
      as Hn. rewrite E in Hn. rewrite <- Hf. exact (Hn Hfin).
  - exists (L ++ ls), (<[i := lines_after it k ++ ls]> es).
    split_and!; [by rewrite Hl, app_assoc | by rewrite length_insert | by apply interleaving_item |].
    intros j e' Hj. destruct (decide (j = i)) as [-> | Hne].
    + rewrite list_lookup_insert_eq in Hj by done. injection Hj as <-.
      intros it' Hit'. rewrite Hit in Hit'. injection Hit' as <-. right; left.
      exists s', (S k). split_and!; [set_solver | |].
      * by rewrite (stage_after_S writable st it k (files p)), E.
      * by rewrite (lines_after_S it k (files p)), E.
    + rewrite list_lookup_insert_ne in Hj by done.
      apply (emitted_ok_transfer p); [done | | done | exact (Hok j e' Hj)].
      intros s2. rewrite Hr. assert (∀ x, (j, s2) ≠ (i, x)) by congruence. set_solver.
Qed.

Lemma trace_inv_finish (files0 : Files) (log0 : list Line) (p : Pool) r1 r2 i s it o ls files' :
  pool_inv writable st items p → trace_inv files0 log0 p →
  running p = r1 ++ (i, s) :: r2 → items !! i = Some it →
  task_step writable st it s (files p) = (Finished o, ls, files') →
  trace_inv files0 log0 {| queue := queue p; running := r1 ++ r2;
                           finished := finished p ++ [(i, o)]; collected := collected p;
                           files := files'; log := log p ++ ls |}.
Proof.
  intros Hinv [Hf (L & es & Hl & Hlen & Hil & Hok)] Hr Hit E.
  assert (Hin : (i, s) ∈ running p) by (rewrite Hr; set_solver).
  destruct (inv_running _ _ _ _ Hinv i s Hin) as (it0 & k0 & _ & _ & Hnf).
  assert (Hi : i < length es) by (rewrite Hlen; by eapply lookup_lt_Some).
  destruct (lookup_lt_is_Some_2 es i Hi) as [e He].
  destruct (emitted_running p i s it e Hinv Hin Hit (Hok i e He)) as (k & -> & ->).
  split; cbn [files finished log queue running collected].
  - pose proof (task_step_files writable st it (stage_after writable st it k) (files p)) as Hw.
    rewrite E in Hw. cbn in Hw.
    rewrite Hw, (task_step_finish_delta it k (files p) o), Hf by (by rewrite ?E).
    unfold pool_files. rewrite map_app, foldl_app. cbn. unfold delta. by rewrite Hit.
  - exists (L ++ ls), (<[i := lines_after it k ++ ls]> es).
    split_and!; [by rewrite Hl, app_assoc | by rewrite length_insert | |].
    + by apply interleaving_item.
    + intros j e' Hj. destruct (decide (j = i)) as [-> | Hne].
      * rewrite list_lookup_insert_eq in Hj by done. injection Hj as <-.
        intros it' Hit'. rewrite Hit in Hit'. injection Hit' as <-. right; right.
        exists o. split; [set_solver |].
        replace ls with (task_step writable st it (stage_after writable st it k) (files p)).1.2
          by (by rewrite E).
        rewrite <- lines_after_S. apply lines_after_done.
        by rewrite (stage_after_S writable st it k (files p)), E.
      * rewrite list_lookup_insert_ne in Hj by done.
        apply (emitted_ok_transfer p); [done | | set_solver | exact (Hok j e' Hj)].
        intros s2. rewrite Hr. assert (∀ x, (j, s2) ≠ (i, x)) by congruence. set_solver.
Qed.

Lemma trace_inv_collect (files0 : Files) (log0 : list Line) (p : Pool) (x : nat * Outcome) :
  trace_inv files0 log0 p →
  trace_inv files0 log0 {| queue := queue p; running := running p;
                           finished := finished p; collected := collected p ++ [x];
                           files := files p; log := log p ++ collect_lines x.2 |}.
Proof.
  intros [Hf (L & es & Hl & Hlen & Hil & Hok)]. split; [exact Hf |].
  exists (L ++ collect_lines x.2), es. cbn. split_and!; [by rewrite Hl, app_assoc | done | |].
  - unfold collect_log. rewrite map_app, join_app. cbn.
    rewrite app_nil_r. by apply interleaving_last.
  - intros j e Hj. exact (emitted_ok_transfer p _ j e (λ H, H) (λ _ H, H) (λ _ H, H) (Hok j e Hj)).
Qed.

Lemma trace_inv_step (files0 : Files) (log0 : list Line) (p p' : Pool) :
  pool_inv writable st items p → trace_inv files0 log0 p →
  pool_step writable st items p p' → trace_inv files0 log0 p'.
Proof.
  intros Hinv Ht Hs. destruct Hs.
  - by eapply trace_inv_start.
  - by eapply trace_inv_advance.
  - by eapply trace_inv_finish.
  - by eapply trace_inv_collect.
Qed.

Lemma reachable_trace_inv (files0 : Files) (log0 : list Line) (p : Pool) :
  reachable writable st items files0 log0 p →
  pool_inv writable st items p ∧ trace_inv files0 log0 p.
Proof.
  unfold reachable. intros Hr. remember (pool_init items files0 log0) as p0 eqn:E.
  assert (H0 : pool_inv writable st items p0 ∧ trace_inv files0 log0 p0)
    by (subst; split; [apply pool_inv_init | apply trace_inv_init]).
  clear E. induction Hr as [p0 | p0 p1 p2 Hs _ IH]; [exact H0 |].
  apply IH. destruct H0 as [Hi Ht].
  split; [exact (pool_inv_step _ _ _ _ _ Hi Hs) | exact (trace_inv_step _ _ _ _ Hi Ht Hs)].
Qed.

(** ** A drained pool meets the contract *)

Lemma delta_disjoint :
  NoDup ((transcript_path ∘ video_path) <$> items) → ∀ i j, i ≠ j → delta i ##ₘ delta j.
Proof.
  intros Hnd i j Hne. unfold delta.
  destruct (items !! i) as [iti|] eqn:Hi; [| apply map_disjoint_empty_l].
  destruct (items !! j) as [itj|] eqn:Hj; [| apply map_disjoint_empty_r]. cbn.
  apply map_disjoint_spec. intros k v1 v2 H1%process_delta H2%process_delta.
  apply Hne, (NoDup_lookup _ i j k Hnd); rewrite list_lookup_fmap; [rewrite Hi | rewrite Hj];
    cbn; by f_equal.
Qed.

Lemma pool_files_final (files0 : Files) (p : Pool) :
  NoDup ((transcript_path ∘ video_path) <$> items) →
  pool_inv writable st items p → final p → pool_files files0 (finished p) = seq_files files0.
Proof.
  intros Hnd Hinv Hfin. unfold pool_files, seq_files.
  rewrite (foldl_union_perm delta files0 _ _ (delta_disjoint Hnd)
             (final_finished_perm _ _ _ _ Hinv Hfin)).
  rewrite <- (foldl_seq_lookup (λ f it, (process_single_file writable st f it).1.2)).
  apply foldl_ext. intros f i. unfold delta.
  destruct (items !! i) as [it|]; cbn; [| by rewrite map_empty_union].
  symmetry. exact (proj2 (proj2 (process_frame writable st it f))).
Qed.

Lemma finished_perm_outcomes (p : Pool) :
  pool_inv writable st items p → final p → finished p ≡ₚ seq_outcomes.
Proof.
  intros Hinv Hfin. pose proof (final_finished_perm _ _ _ _ Hinv Hfin) as Hp.
  apply NoDup_Permutation.
  - apply NoDup_ListNoDup, (NoDup_map_inv fst), NoDup_ListNoDup. rewrite Hp. apply NoDup_seq.
  - apply NoDup_ListNoDup, (NoDup_map_inv fst), NoDup_ListNoDup. unfold seq_outcomes.
    rewrite (map_fst_imap (λ _ it, outcome_of writable st it)). apply NoDup_seq.
  - intros [i o]. unfold seq_outcomes. rewrite elem_of_lookup_imap. split.
    + intros Hin. destruct (inv_finished _ _ _ _ Hinv i o Hin) as (it & Hit & ->). eauto.
    + intros (j & it & [= -> ->] & Hit). exact (final_outcomes_complete _ _ _ _ Hinv Hfin j it Hit).
Qed.

Lemma final_emitted (p : Pool) (es : list (list Line)) :
  final p → length es = length items → (∀ i e, es !! i = Some e → emitted_ok p i e) →
  es = item_lines <$> items.
Proof.
  intros (Hq & Hr & _) Hlen Hok. apply list_eq. intros i. rewrite list_lookup_fmap.
  destruct (es !! i) as [e|] eqn:He.
  - destruct (lookup_lt_is_Some_2 items i) as [it Hit]; [rewrite <- Hlen; by eapply lookup_lt_Some |].
    rewrite Hit. cbn. f_equal.
    destruct (Hok i e He it Hit) as [[Hi _] | [(s & k & Hi & _) | (o & _ & ->)]]; [| | done];
      rewrite ?Hq, ?Hr in Hi; by apply elem_of_nil in Hi.
  - apply lookup_ge_None in He. rewrite Hlen in He. by rewrite lookup_ge_None_2.
Qed.

(** The log of a drained pool, after what was printed before, interleaves
    the items' lines with the collection lines; this needs no condition on
    the transcript paths. *)
Lemma final_log_interleaving (files0 : Files) (log0 : list Line) (p : Pool) :
  reachable writable st items files0 log0 p → final p →
  ∃ L, log p = log0 ++ L ∧ interleaving ((item_lines <$> items) ++ [collect_log (collected p)]) L.
Proof.
  intros Hr Hfin. destruct (reachable_trace_inv _ _ _ Hr) as [_ [_ (L & es & Hl & Hlen & Hil & Hok)]].
  exists L. split; [done |]. by rewrite <- (final_emitted p es Hfin Hlen Hok).
Qed.

(** C2. Refinement: when the items' transcript paths are distinct, every
    drained run of the pool meets the batch contract: its outcomes are
    the sequential outcomes, one per item; its files are those of the
    items run one after the other in list order; and its log, after what
    was printed before, interleaves each item's lines, in the item's own
    order, with the lines [as_completed] prints. *)
Theorem pool_refines_batch (files0 : Files) (log0 : list Line) (p : Pool) :
  NoDup ((transcript_path ∘ video_path) <$> items) →
  reachable writable st items files0 log0 p → final p →
  batch_spec files0 log0 (files p) (log p) (collected p).
Proof.
  intros Hnd Hr Hfin. destruct (reachable_trace_inv _ _ _ Hr) as [Hinv [Hf _]]. split.
  - rewrite (final_collected_perm _ _ _ _ Hinv Hfin). by apply finished_perm_outcomes.
  - rewrite Hf. by apply pool_files_final.
  - exact (final_log_interleaving files0 log0 p Hr Hfin).
Qed.

(** C4. Output of a drained pool: each item's lines appear in the log in
    the order [process_single_file] prints them, whatever the schedule, and
    the log holds nothing else than what was printed before, every item's
    lines and the lines of [as_completed] (as a multiset). *)
Theorem pool_log_items (files0 : Files) (log0 : list Line) (p : Pool) (i : nat) (it : WorkItem) :
  reachable writable st items files0 log0 p → final p → items !! i = Some it →
  item_lines it `sublist_of` log p ∧
  log p ≡ₚ log0 ++ mjoin (item_lines <$> items) ++ collect_log (collected p).
Proof.
  intros Hr Hfin Hit. destruct (final_log_interleaving files0 log0 p Hr Hfin) as (L & -> & Hil).
  split.
  - apply sublist_inserts_l, (interleaving_sublist _ _ i _ Hil).
    rewrite lookup_app_l, list_lookup_fmap, Hit; [done |].
    rewrite length_fmap. by eapply lookup_lt_Some.
  - rewrite (interleaving_perm _ _ Hil), join_app. cbn. by rewrite app_nil_r.
Qed.

(** The writes of items completing later leave a path untouched when none
    of them writes it. *)
Lemma pool_files_untouched (tp : string) (l : list nat) (f : Files) :
  (∀ j, j ∈ l → delta j !! tp = None) → foldl (λ f i, delta i ∪ f) f l !! tp = f !! tp.
Proof.
  induction l as [|j l IH] in f |- *; intros Hl; [done |]. cbn [foldl].
  rewrite IH by (intros k Hk; apply Hl; by right). apply lookup_union_r, Hl. by left.
Qed.


End Orchestrator.

(** ** Witnesses: the example batch, and a batch whose transcripts collide *)

Lemma pool_refines_batch_witness :
  batch_spec (client := ok_client) (λ _, true) ex_store ex_items ∅ []
    (files (example_pool 100)) (log (example_pool 100)) (collected (example_pool 100)).
Proof.
  apply (pool_refines_batch (client := ok_client) _ _ _ _ _ _).
  - apply (bool_decide_unpack _). vm_compute. reflexivity.
  - apply example_pool_reachable.
  - vm_compute. split; [reflexivity | split; reflexivity].
Defined.

Lemma pool_log_items_witness :
  item_lines (client := ok_client) (λ _, true) ex_store example_item `sublist_of` log (example_pool 100)
  ∧ log (example_pool 100)
    ≡ₚ [] ++ mjoin (item_lines (client := ok_client) (λ _, true) ex_store <$> ex_items)
       ++ collect_log (collected (example_pool 100)).
Proof.
  apply (pool_log_items (client := ok_client) (λ _, true) ex_store ex_items ∅ [] (example_pool 100) 0).
  - apply example_pool_reachable.
  - vm_compute. split; [reflexivity | split; reflexivity].
  - vm_compute. reflexivity.
Defined.

(** A channel folder holding the videos [.mp4] and [.mp4.mp4], which share
    the transcript [.mp4.txt] ([transcript_path_collision]). *)
Definition race_fs : FileSystem :=
  {["r/Channel 5/13 January" := Dir [(".mp4", File); (".mp4.mp4", File)]]}.
Definition race_store : Store := (gather race_fs store0 ["r/Channel 5/13 January"]).1.
Definition race_items : list WorkItem := (gather race_fs store0 ["r/Channel 5/13 January"]).2.
Definition race_init : Pool := pool_init race_items ∅ [].

(** A schedule in which the first video's thread ends first. *)
Definition sched_first : list Choice :=
  [CStart; CStart; CRun 0; CRun 0; CRun 0; CRun 0; CRun 0; CRun 0; CRun 0; CRun 0;
   CCollect 0; CCollect 0].

End Orchestrator.
