(* ===== verification/Main.v ===== *)
(** * BatchSequencer: the module-level script (lines 147-176)

    The script computes yesterday's date ([datetime.today() -
    timedelta(days=1)], line 149), formats it with ["%d %B"] (line 152),
    builds the five channel directories (lines 158-162), and runs
    [process_and_upload_transcripts_in_parallel] on the two batches in
    order with a 30-second sleep between them (lines 164-176).  Dates follow
    [datetime]: proleptic Gregorian, years 1 to 9999, and subtracting a day
    from 0001-01-01 raises [OverflowError].  A batch run is [gather] then a
    drained run of the pool; the store of configuration objects and the
    files carry over from batch 1 to batch 2. *)

From S2P Require Import Prelude PyStr Language Config Discover Client Worker Pool Orchestrator.
Import PyStr PosixPath Config Discover Client Worker Pool Orchestrator.

Module Date.

(** The year is an [N], the range of [datetime] (1 to 9999) being far
    beyond what unary numbers compute with. *)
Record Date := { year : N; month : nat; day : nat }.

Definition is_leap (y : N) : bool :=
  (N.eqb (y mod 4) 0 && negb (N.eqb (y mod 100) 0)) || N.eqb (y mod 400) 0.

(** [calendar.monthrange(y, m)[1]] *)
Definition days_in_month (y : N) (m : nat) : nat :=
  match m with
  | 2 => if is_leap y then 29 else 28
  | 4 | 6 | 9 | 11 => 30
  | _ => 31
  end.

(** A date [datetime] accepts. *)
Definition valid (d : Date) : bool :=
  (N.leb 1 (year d)) && (N.leb (year d) 9999) && (1 <=? month d) && (month d <=? 12)
  && (1 <=? day d) && (day d <=? days_in_month (year d) (month d)).

(** [d - timedelta(days=1)]; [None] is the [OverflowError] below year 1. *)
Definition yesterday (d : Date) : option Date :=
  if 1 <? day d then Some {| year := year d; month := month d; day := day d - 1 |}
  else if 1 <? month d then
    Some {| year := year d; month := month d - 1;
            day := days_in_month (year d) (month d - 1) |}
  else if N.ltb 1 (year d) then
    Some {| year := N.pred (year d); month := 12; day := 31 |}
  else None.

(** [d + timedelta(days=1)], for the round trip. *)
Definition tomorrow (d : Date) : Date :=
  if day d <? days_in_month (year d) (month d)
  then {| year := year d; month := month d; day := S (day d) |}
  else if month d <? 12 then {| year := year d; month := S (month d); day := 1 |}
  else {| year := N.succ (year d); month := 1; day := 1 |}.

Definition month_names : list string :=
  ["January"; "February"; "March"; "April"; "May"; "June"; "July";
   "August"; "September"; "October"; "November"; "December"].

Definition digit (n : nat) : ascii := ascii_of_nat (48 + n).

(** [%d]: the day of the month as a zero-padded decimal number. *)
Definition two_digits (n : nat) : string :=
  String.String (digit (n / 10)) (String.String (digit (n mod 10)) "").

(** Line 152: [strftime("%d %B")] in the C locale. *)
Definition strftime_d_B (d : Date) : string :=
  two_digits (day d) +:+ " " +:+ default "" (month_names !! (month d - 1)).

(** ** Lemmas *)

Lemma days_in_month_bounds (y : N) (m : nat) : 28 ≤ days_in_month y m ≤ 31.
Proof.
  unfold days_in_month. destruct (is_leap y);
    do 12 (destruct m as [|m]; [lia |]); lia.
Qed.

Lemma digit_not_sep (n : nat) : n < 10 → Ascii.eqb (digit n) "/" = false.
Proof. intros H. do 10 (destruct n as [|n]; [reflexivity |]). lia. Qed.

Lemma month_name_no_sep (k : nat) : PyStr.rfind "/" (default "" (month_names !! k)) = None.
Proof. do 12 (destruct k as [|k]; [reflexivity |]). reflexivity. Qed.

(** The formatted date of a valid date has no separator: it names one
    folder. *)
Lemma strftime_no_sep (d : Date) :
  valid d = true → PyStr.rfind "/" (strftime_d_B d) = None.
Proof.
  unfold valid. intros Hv. repeat rewrite andb_true_iff in Hv.
  destruct Hv as [[[[[_ _] _] _] _] Hd]. apply Nat.leb_le in Hd.
  pose proof (days_in_month_bounds (year d) (month d)).
  unfold strftime_d_B, two_digits. rewrite !str_app_cons, !str_app_nil_l.
  rewrite !PyStrFacts.rfind_cons, month_name_no_sep.
  rewrite (ascii_eqb_neq " " "/") by discriminate.
  rewrite !digit_not_sep; [reflexivity | |].
  - apply Nat.Div0.div_lt_upper_bound. lia.
  - apply Nat.mod_upper_bound. lia.
Qed.

(** ** Yesterday and tomorrow *)

(** C33. Round trip: the day before a valid date is a valid date, and
    the day after it is the date again. *)
Theorem yesterday_roundtrip (d d' : Date) :
  valid d = true → yesterday d = Some d' → valid d' = true ∧ tomorrow d' = d.
Proof.
  destruct d as [y m dd]. unfold valid, yesterday, tomorrow. cbn [year month day].
  intros Hv. repeat rewrite andb_true_iff in Hv. rewrite !Nat.leb_le, !N.leb_le in Hv.
  destruct Hv as [[[[[Hy1 Hy2] Hm1] Hm2] Hd1] Hd2].
  destruct (Nat.ltb_spec 1 dd); [| destruct (Nat.ltb_spec 1 m); [| destruct (N.ltb_spec 1 y)]];
    intros Hs; try discriminate; injection Hs as <-; cbn [year month day].
  - split; [repeat rewrite andb_true_iff; rewrite !Nat.leb_le, !N.leb_le; lia |].
    destruct (Nat.ltb_spec (dd - 1) (days_in_month y m)); [| lia]. do 2 f_equal. lia.
  - pose proof (days_in_month_bounds y (m - 1)).
    split; [repeat rewrite andb_true_iff; rewrite !Nat.leb_le, !N.leb_le; lia |].
    rewrite Nat.ltb_irrefl. destruct (Nat.ltb_spec (m - 1) 12); [| lia].
    f_equal; lia.
  - change (days_in_month (N.pred y) 12) with 31.
    split; [repeat rewrite andb_true_iff; rewrite !Nat.leb_le, !N.leb_le; lia |].
    change (31 <? 31) with false. change (12 <? 12) with false. cbv iota.
    f_equal; lia.
Qed.

Lemma yesterday_roundtrip_witness :
  valid {| year := 2024; month := 2; day := 29 |} = true
  ∧ tomorrow {| year := 2024; month := 2; day := 29 |} = {| year := 2024; month := 3; day := 1 |}.
Proof.
  exact (yesterday_roundtrip {| year := 2024; month := 3; day := 1 |}
           {| year := 2024; month := 2; day := 29 |} eq_refl eq_refl).
Defined.

End Date.

Module Script.
Import Date.

(** Lines 155-165. *)
Definition g_drive_file_path : string := "your_file_path".
Definition monitoring_period : string := "Period (2025 H1)".

(** [f"{g_drive_file_path}/{monitoring_period}/{channel}/{date}"] *)
Definition channel_dir (channel formatted_date : string) : string :=
  g_drive_file_path +:+ "/" +:+ monitoring_period +:+ "/" +:+ channel +:+ "/"
  +:+ formatted_date.

Definition batch_1 (formatted_date : string) : list string :=
  [channel_dir "Channel 5" formatted_date; channel_dir "Channel 8" formatted_date].
Definition batch_2 (formatted_date : string) : list string :=
  [channel_dir "Channel U" formatted_date; channel_dir "Suria" formatted_date;
   channel_dir "Vasantham" formatted_date].

Definition overflow_error : Exc := OtherError "OverflowError: date value out of range".

(** What the script has produced so far: the object store, the files and
    the printed lines. *)
Record Run := { run_store : Store; run_files : Files; run_log : list Line }.

(** How the script ends: it completes, or the date computation raises. *)
Inductive ScriptEnd := Completed (r : Run) | Crashed (e : Exc).

(** Example inputs: the script run on 14 January 2025 over an empty
    drive. *)
Definition ex_today : Date := {| year := 2025; month := 1; day := 14 |}.
Definition ex_date : string := strftime_d_B {| year := 2025; month := 1; day := 13 |}.
Definition ex_run : Run := {|
  run_store := (gather ∅ (gather ∅ store0 (batch_1 ex_date)).1 (batch_2 ex_date)).1;
  run_files := ∅;
  run_log := [LBanner "Processing Batch 1 in parallel...";
              LBanner "Waiting before starting Batch 2..."; LSleep 30;
              LBanner "Processing Batch 2 in parallel..."; LBanner "All batches processed."] |}.

Section Script.
Context {client : TranscriptionClient} (writable : string → bool) (fs : FileSystem).

(** Lines 77-145, [process_and_upload_transcripts_in_parallel(directories)]:
    gather the items, then a drained run of the pool on them. *)
Definition batch_run (r : Run) (directories : list string) (r' : Run) : Prop :=
  let '(st1, items) := gather fs (run_store r) directories in
  ∃ p, rtc (pool_step writable st1 items) (pool_init items (run_files r) (run_log r)) p
       ∧ final p ∧ r' = {| run_store := st1; run_files := files p; run_log := log p |}.

(** Lines 147-176. *)
Definition script_run (today : Date) (files0 : Files) (e : ScriptEnd) : Prop :=
  match yesterday today with
  | None => e = Crashed overflow_error
  | Some yesterday_date =>
      let formatted_yesterday_date := strftime_d_B yesterday_date in
      ∃ r1 r2,
        batch_run {| run_store := store0; run_files := files0;
                     run_log := [LBanner "Processing Batch 1 in parallel..."] |}
          (batch_1 formatted_yesterday_date) r1
        ∧ batch_run {| run_store := run_store r1; run_files := run_files r1;
                       run_log := run_log r1 ++
                         [LBanner "Waiting before starting Batch 2..."; LSleep 30;
                          LBanner "Processing Batch 2 in parallel..."] |}
            (batch_2 formatted_yesterday_date) r2
        ∧ e = Completed {| run_store := run_store r2; run_files := run_files r2;
                           run_log := run_log r2 ++ [LBanner "All batches processed."] |}
  end.

(** ** Lemmas *)

Lemma batch_run_exists (r : Run) (directories : list string) : ∃ r', batch_run r directories r'.
Proof.
  unfold batch_run. destruct (gather fs (run_store r) directories) as [st1 items].
  destruct (drains_inv writable st1 items (pool_init items (run_files r) (run_log r))
              (pool_inv_init writable st1 items _ _)) as (p & Hr & Hf).
  eexists _, p. eauto.
Qed.

Lemma batch_run_log (r : Run) (directories : list string) (r' : Run) :
  batch_run r directories r' →
  ∃ p ls, final p ∧ run_log r' = run_log r ++ ls ∧ log p = run_log r' ∧
    length (finished p) = length (gather fs (run_store r) directories).2.
Proof.
  unfold batch_run. destruct (gather fs (run_store r) directories) as [st1 items].
  intros (p & Hr & Hf & ->). simpl.
  destruct (rtc_log writable st1 items _ _ Hr) as [ls Hls]. simpl in Hls.
  exists p, ls. split; [exact Hf |]. split; [exact Hls |]. split; [reflexivity |].
  pose proof (final_finished_perm writable st1 items p (reachable_inv _ _ _ _ _ _ Hr) Hf) as Hp.
  rewrite <- (length_map fst), Hp, length_seq. reflexivity.
Qed.

(** A batch whose transcript paths are distinct writes what its items
    write run one after the other (the refinement of [Orchestrator]). *)
Lemma batch_run_files (r : Run) (directories : list string) (r' : Run) :
  NoDup ((transcript_path ∘ video_path) <$> (gather fs (run_store r) directories).2) →
  batch_run r directories r' →
  run_store r' = (gather fs (run_store r) directories).1 ∧
  run_files r' = seq_files writable (gather fs (run_store r) directories).1
                   (gather fs (run_store r) directories).2 (run_files r).
Proof.
  unfold batch_run. destruct (gather fs (run_store r) directories) as [st1 items]. cbn.
  intros Hnd (p & Hr & Hf & ->). cbn. split; [done |].
  destruct (reachable_trace_inv writable st1 items _ _ _ Hr) as [Hinv [Hfiles _]].
  rewrite Hfiles. by apply pool_files_final.
Qed.

(** A batch's log after what was printed before it: its items' lines,
    each in its own order, interleaved with the [as_completed] lines of
    its outcomes, which are the sequential ones (the refinement of
    [Orchestrator], without condition on the transcript paths). *)
Lemma batch_run_trace (r : Run) (directories : list string) (r' : Run) :
  batch_run r directories r' →
  run_store r' = (gather fs (run_store r) directories).1 ∧
  ∃ outs L,
    outs ≡ₚ seq_outcomes writable (gather fs (run_store r) directories).1
              (gather fs (run_store r) directories).2 ∧
    run_log r' = run_log r ++ L ∧
    interleaving ((item_lines writable (gather fs (run_store r) directories).1
                     <$> (gather fs (run_store r) directories).2) ++ [collect_log outs]) L.
Proof.
  unfold batch_run. destruct (gather fs (run_store r) directories) as [st1 items]. cbn.
  intros (p & Hr & Hf & ->). cbn. split; [done |].
  destruct (reachable_trace_inv writable st1 items _ _ _ Hr) as [Hinv _].
  destruct (final_log_interleaving writable st1 items _ _ p Hr Hf) as (L & Hl & Hil).
  exists (collected p), L. split_and!; [| done | done].
  rewrite (final_collected_perm _ _ _ _ Hinv Hf). by apply finished_perm_outcomes.
Qed.

(** ** The behaviour of the script *)

(** C26. Whatever the date, the five directories of lines 158-162 resolve
    to the languages of their channels: English for Channel 5, Mandarin for
    Channel 8 and Channel U, Malay for Suria, Tamil for Vasantham. *)
Theorem script_languages (d : Date) :
  valid d = true →
  map Language.get_language_from_directory
    (batch_1 (strftime_d_B d) ++ batch_2 (strftime_d_B d))
  = ["en"; "cmn"; "cmn"; "ms"; "ta"].
Proof.
  intros Hv. pose proof (strftime_no_sep d Hv) as Hf.
  assert (E : ∀ name, name ≠ "" → PyStr.rfind "/" name = None →
            Language.get_language_from_directory (channel_dir name (strftime_d_B d))
            = default "auto" (Language.language_map !! name)).
  { intros name Hne Hn. unfold Language.get_language_from_directory.
    change (channel_dir name (strftime_d_B d))
      with ((g_drive_file_path +:+ "/" +:+ monitoring_period)
              +:+ String.String sep (name +:+ String.String sep (strftime_d_B d))).
    rewrite Language.folder_name_child by assumption. reflexivity. }
  simpl. rewrite !E by (discriminate || reflexivity). reflexivity.
Qed.

Lemma script_languages_witness :
  map Language.get_language_from_directory
    (batch_1 (strftime_d_B {| year := 2025; month := 1; day := 13 |})
     ++ batch_2 (strftime_d_B {| year := 2025; month := 1; day := 13 |}))
  = ["en"; "cmn"; "cmn"; "ms"; "ta"].
Proof. exact (script_languages {| year := 2025; month := 1; day := 13 |} eq_refl). Defined.

(** C28. Liveness: unless the date computation overflows, the script
    completes: both batches drain. *)
Theorem script_completes (today : Date) (files0 : Files) :
  is_Some (yesterday today) → ∃ r, script_run today files0 (Completed r).
Proof.
  intros [y Hy]. unfold script_run. rewrite Hy.
  destruct (batch_run_exists {| run_store := store0; run_files := files0;
      run_log := [LBanner "Processing Batch 1 in parallel..."] |}
      (batch_1 (strftime_d_B y))) as [r1 H1].
  destruct (batch_run_exists {| run_store := run_store r1; run_files := run_files r1;
      run_log := run_log r1 ++ [LBanner "Waiting before starting Batch 2..."; LSleep 30;
                                LBanner "Processing Batch 2 in parallel..."] |}
      (batch_2 (strftime_d_B y))) as [r2 H2].
  eexists. exists r1, r2. eauto.
Qed.

(** C27. Sequencing: in every completed run, batch 1's pool has drained,
    with one outcome per batch-1 item, before the 30-second sleep; batch 2
    starts only after the sleep, and its lines come after it. *)
Theorem script_sequencing (today : Date) (files0 : Files) (r : Run) :
  script_run today files0 (Completed r) →
  ∃ y p1 ls1 ls2, yesterday today = Some y ∧ final p1 ∧
    length (finished p1) = length (gather fs store0 (batch_1 (strftime_d_B y))).2 ∧
    log p1 = LBanner "Processing Batch 1 in parallel..." :: ls1 ∧
    run_log r = log p1 ++ [LBanner "Waiting before starting Batch 2..."; LSleep 30;
                           LBanner "Processing Batch 2 in parallel..."]
                ++ ls2 ++ [LBanner "All batches processed."].
Proof.
  unfold script_run. destruct (yesterday today) as [y|]; [| discriminate].
  intros (r1 & r2 & H1 & H2 & Hr). injection Hr as ->.
  destruct (batch_run_log _ _ _ H1) as (p1 & ls1 & Hf1 & Hl1 & Hp1 & Hn1).
  destruct (batch_run_log _ _ _ H2) as (p2 & ls2 & _ & Hl2 & _ & _).
  exists y, p1, ls1, ls2. split; [reflexivity |]. split; [exact Hf1 |].
  split; [exact Hn1 |]. split; [rewrite Hp1, Hl1; reflexivity |].
  simpl. rewrite Hl2. simpl. rewrite Hp1, <- !app_assoc. reflexivity.
Qed.

(** C24. Refinement of the whole script: when each batch's transcript
    paths are distinct, the files a completed run leaves are those of
    processing batch 1's items one after the other and then batch 2's,
    each against the configuration store its gathering produced. *)
Theorem script_refines (today y : Date) (files0 : Files) (r : Run) :
  yesterday today = Some y →
  NoDup ((transcript_path ∘ video_path) <$> (gather fs store0 (batch_1 (strftime_d_B y))).2) →
  NoDup ((transcript_path ∘ video_path) <$>
           (gather fs (gather fs store0 (batch_1 (strftime_d_B y))).1
              (batch_2 (strftime_d_B y))).2) →
  script_run today files0 (Completed r) →
  let '(st1, items1) := gather fs store0 (batch_1 (strftime_d_B y)) in
  let '(st2, items2) := gather fs st1 (batch_2 (strftime_d_B y)) in
  run_files r = seq_files writable st2 items2 (seq_files writable st1 items1 files0).
Proof.
  intros Hy Hnd1 Hnd2. unfold script_run. rewrite Hy. intros (r1 & r2 & H1 & H2 & [= ->]).
  pose proof (λ H, batch_run_files _ _ _ H H1) as B1. pose proof (λ H, batch_run_files _ _ _ H H2) as B2.
  cbn [run_store run_files] in B1, B2. destruct (B1 Hnd1) as [Hs1 Hf1].
  rewrite <- Hs1 in Hnd2. destruct (B2 Hnd2) as [_ Hf2].
  rewrite Hs1 in Hf2. rewrite Hf1 in Hf2. cbn [run_files]. rewrite Hf2.
  destruct (gather fs store0 (batch_1 (strftime_d_B y))) as [st1 items1]. cbn [fst snd].
  by destruct (gather fs st1 (batch_2 (strftime_d_B y))).
Qed.

(** C25. The script's output: a completed run prints the banner of batch
    1, then batch 1's lines (each item's lines in the order
    [process_single_file] prints them, interleaved with the [as_completed]
    lines of outcomes that are the sequential ones), then the waiting
    banner, the sleep and the banner of batch 2, then batch 2's lines in
    the same way, then the closing banner; nothing else. *)
Theorem script_log (today : Date) (files0 : Files) (r : Run) :
  script_run today files0 (Completed r) →
  ∃ y outs1 L1 outs2 L2, yesterday today = Some y ∧
    let g1 := gather fs store0 (batch_1 (strftime_d_B y)) in
    let g2 := gather fs g1.1 (batch_2 (strftime_d_B y)) in
    outs1 ≡ₚ seq_outcomes writable g1.1 g1.2 ∧ outs2 ≡ₚ seq_outcomes writable g2.1 g2.2 ∧
    interleaving ((item_lines writable g1.1 <$> g1.2) ++ [collect_log outs1]) L1 ∧
    interleaving ((item_lines writable g2.1 <$> g2.2) ++ [collect_log outs2]) L2 ∧
    run_log r = [LBanner "Processing Batch 1 in parallel..."] ++ L1
                ++ [LBanner "Waiting before starting Batch 2..."; LSleep 30;
                    LBanner "Processing Batch 2 in parallel..."]
                ++ L2 ++ [LBanner "All batches processed."].
Proof.
  unfold script_run. destruct (yesterday today) as [y|]; [| discriminate].
  intros (r1 & r2 & H1 & H2 & [= ->]).
  destruct (batch_run_trace _ _ _ H1) as [Hs1 (outs1 & L1 & Ho1 & Hl1 & Hi1)].
  destruct (batch_run_trace _ _ _ H2) as [_ (outs2 & L2 & Ho2 & Hl2 & Hi2)].
  cbn [run_store run_log] in *. rewrite Hs1 in Ho2, Hi2.
  exists y, outs1, L1, outs2, L2. split; [done |]. cbn zeta. split_and!; try done.
  rewrite Hl2, Hl1. by rewrite <- !app_assoc.
Qed.

End Script.

Lemma script_completes_witness :
  ∃ r, script_run (client := ok_client) (λ _, true) ∅ ex_today ∅ (Completed r).
Proof.
  apply (script_completes (client := ok_client) (λ _, true) ∅ ex_today ∅).
  eexists. reflexivity.
Defined.

(** The example run is a completed run of the script on an empty drive. *)
Lemma ex_run_script : script_run (client := ok_client) (λ _, true) ∅ ex_today ∅ (Completed ex_run).
Proof.
  unfold script_run. cbn [yesterday ex_today year month day Nat.ltb Nat.leb].
  eexists {| run_store := (gather ∅ store0 (batch_1 ex_date)).1; run_files := ∅;
             run_log := [LBanner "Processing Batch 1 in parallel..."] |}.
  eexists {| run_store := ex_run.(run_store); run_files := ∅;
             run_log := [LBanner "Processing Batch 1 in parallel...";
                         LBanner "Waiting before starting Batch 2..."; LSleep 30;
                         LBanner "Processing Batch 2 in parallel..."] |}.
  split; [| split].
  - unfold batch_run. simpl. eexists. split; [apply rtc_refl |].
    split; [split; [| split]; reflexivity | reflexivity].
  - unfold batch_run. simpl. eexists. split; [apply rtc_refl |].
    split; [split; [| split]; reflexivity | reflexivity].
  - reflexivity.
Defined.

Lemma script_sequencing_witness :
  ∃ y p1 ls1 ls2, yesterday ex_today = Some y ∧ final p1 ∧
    length (finished p1) = length (gather ∅ store0 (batch_1 (strftime_d_B y))).2 ∧
    log p1 = LBanner "Processing Batch 1 in parallel..." :: ls1 ∧
    run_log ex_run = log p1 ++ [LBanner "Waiting before starting Batch 2..."; LSleep 30;
                                LBanner "Processing Batch 2 in parallel..."]
                     ++ ls2 ++ [LBanner "All batches processed."].
Proof.
  exact (script_sequencing (client := ok_client) (λ _, true) ∅ ex_today ∅ ex_run ex_run_script).
Defined.

Lemma script_log_witness :
  ∃ y outs1 L1 outs2 L2, yesterday ex_today = Some y ∧
    let g1 := gather ∅ store0 (batch_1 (strftime_d_B y)) in
    let g2 := gather ∅ g1.1 (batch_2 (strftime_d_B y)) in
    outs1 ≡ₚ seq_outcomes (client := ok_client) (λ _, true) g1.1 g1.2
    ∧ outs2 ≡ₚ seq_outcomes (client := ok_client) (λ _, true) g2.1 g2.2
    ∧ interleaving ((item_lines (client := ok_client) (λ _, true) g1.1 <$> g1.2)
                    ++ [collect_log outs1]) L1
    ∧ interleaving ((item_lines (client := ok_client) (λ _, true) g2.1 <$> g2.2)
                    ++ [collect_log outs2]) L2
    ∧ run_log ex_run = [LBanner "Processing Batch 1 in parallel..."] ++ L1
                ++ [LBanner "Waiting before starting Batch 2..."; LSleep 30;
                    LBanner "Processing Batch 2 in parallel..."]
                ++ L2 ++ [LBanner "All batches processed."].
Proof. exact (script_log (client := ok_client) (λ _, true) ∅ ex_today ∅ ex_run ex_run_script). Defined.

Lemma script_refines_witness :
  let '(st1, items1) := gather ∅ store0 (batch_1 ex_date) in
  let '(st2, items2) := gather ∅ st1 (batch_2 ex_date) in
  run_files ex_run
  = seq_files (client := ok_client) (λ _, true) st2 items2
      (seq_files (client := ok_client) (λ _, true) st1 items1 ∅).
Proof.
  apply (script_refines (client := ok_client) (λ _, true) ∅ ex_today
           {| year := 2025; month := 1; day := 13 |} ∅ ex_run); [reflexivity | | | exact ex_run_script];
    apply (bool_decide_unpack _); vm_compute; reflexivity.
Defined.

(** C34. The folders the script reads for a date: whatever the date, they
    lie under the fixed [Period (2025 H1)] folder (line 156), also after
    June 2025; and a day below ten is written zero-padded ([05 January],
    not the spec's [{day} {month_name}]). *)
Theorem script_date_folders (d : Date) :
  valid d = true →
  (∀ dir, dir ∈ batch_1 (strftime_d_B d) ++ batch_2 (strftime_d_B d) →
     ∃ rest, dir = "your_file_path/Period (2025 H1)/" +:+ rest) ∧
  (day d < 10 → ∃ name, month_names !! (month d - 1) = Some name ∧
     strftime_d_B d = String.String "0" (String.String (digit (day d)) (" " +:+ name))).
Proof.
  intros Hv. split.
  - intros dir Hdir. unfold batch_1, batch_2, channel_dir in Hdir.
    repeat (apply elem_of_cons in Hdir as [-> | Hdir]; [eexists; reflexivity |]).
    by apply elem_of_nil in Hdir.
  - intros Hd. unfold valid in Hv. rewrite !andb_true_iff, !Nat.leb_le in Hv.
    destruct (lookup_lt_is_Some_2 month_names (month d - 1)) as [name Hn];
      [cbn; lia |].
    exists name. split; [done |]. unfold strftime_d_B, two_digits.
    rewrite Nat.div_small, Nat.mod_small, Hn by lia. reflexivity.
Qed.

Lemma script_date_folders_witness :
  (∀ dir, dir ∈ batch_1 (strftime_d_B {| year := 2026; month := 1; day := 5 |})
                ++ batch_2 (strftime_d_B {| year := 2026; month := 1; day := 5 |}) →
     ∃ rest, dir = "your_file_path/Period (2025 H1)/" +:+ rest) ∧
  (day {| year := 2026; month := 1; day := 5 |} < 10 →
   ∃ name, month_names !! (month {| year := 2026; month := 1; day := 5 |} - 1) = Some name ∧
     strftime_d_B {| year := 2026; month := 1; day := 5 |}
     = String.String "0" (String.String (digit 5) (" " +:+ name))).
Proof. apply script_date_folders. reflexivity. Defined.

End Script.
