(* ===== verification/Scenarios.v ===== *)
(** * Failures in a batch: the error scenarios of the spec, run through the pool

    Sections 7 and 8 of the spec describe how a batch behaves when the
    service rejects its calls: an authentication failure (status 401) is
    reported per item and does not stop the batch; a lost job (404 while
    [wait_for_completion] runs) fails its item and leaves the siblings
    untouched.
    This file runs these cases through the pool of [Pool] with the results
    of [Orchestrator]: every theorem is about every drained run of the
    pool, whatever the schedule.

    - [pool_rejected_credentials]: when every submission is refused with
      401, every item is still attempted and reports its own failure; no
      transcript is written and the main thread prints nothing.
    - [lost_job_isolated]: the example batch of [Discover] against a
      service that loses the job of one video: that video's transcript is
      missing and its error is printed with its name, the two others are
      written. *)

From S2P Require Import Prelude PyStr Config Discover Client Worker Pool Orchestrator.
Import Config Discover Client Worker Pool Orchestrator.

Module Scenarios.

(** ** What a drained pool leaves, from the refinement's invariants *)

Section Drained.
Context {client : TranscriptionClient} (writable : string → bool).
Context (st : Store) (items : list WorkItem).

Lemma drained_outcomes (files0 : Files) (log0 : list Line) (p : Pool) :
  reachable writable st items files0 log0 p → final p →
  collected p ≡ₚ seq_outcomes writable st items.
Proof.
  intros Hr Hfin. destruct (reachable_trace_inv writable st items files0 log0 p Hr) as [Hinv _].
  rewrite (final_collected_perm _ _ _ _ Hinv Hfin). by apply finished_perm_outcomes.
Qed.

Lemma drained_log (files0 : Files) (log0 : list Line) (p : Pool) :
  reachable writable st items files0 log0 p → final p →
  log p ≡ₚ log0 ++ mjoin (item_lines writable st <$> items) ++ collect_log (collected p).
Proof.
  intros Hr Hfin. destruct (final_log_interleaving writable st items files0 log0 p Hr Hfin)
    as (L & -> & Hil).
  rewrite (interleaving_perm _ _ Hil), join_app. cbn. by rewrite app_nil_r.
Qed.

Lemma drained_log_elem (files0 : Files) (log0 : list Line) (p : Pool) (l : Line) :
  reachable writable st items files0 log0 p → final p →
  l ∈ mjoin (item_lines writable st <$> items) → l ∈ log p.
Proof.
  intros Hr Hfin Hl. rewrite (drained_log files0 log0 p Hr Hfin).
  apply elem_of_app. right. apply elem_of_app. by left.
Qed.

End Drained.

Lemma collect_log_returned (outs : list (nat * Outcome)) :
  Forall (λ x, x.2 = Returned) outs → collect_log outs = [].
Proof. induction 1 as [|[i o] outs Ho _ IH]; [done |]. cbn in *. by subst. Qed.

(** ** Rejected credentials (spec section 7, AuthError) *)

Section Rejected.
Context {client : TranscriptionClient} (writable : string → bool).
Context (st : Store) (items : list WorkItem).

(** The service refuses every submission with 401, and every item has a
    language (as every item [gather] produces has: [gather_wf]). *)
Hypothesis submit_rejected : ∀ v c, ∃ b, submit_job v c = inl (HTTPStatusError 401 b).
Hypothesis items_language : Forall (λ it, is_Some (Config.get_language st (config it))) items.

Lemma process_rejected (it : WorkItem) (files : Files) :
  is_Some (Config.get_language st (config it)) →
  ∃ lang, process_single_file writable st files it
          = ([LProcessing (video_path it) lang; LCheckApiKey], files, Returned).
Proof.
  intros [lang Hl]. exists lang. unfold process_single_file. rewrite Hl.
  by destruct (submit_rejected (video_path it) (default base_conf (objs st !! config it))) as [b ->].
Qed.

Lemma delta_rejected (i : nat) : delta writable st items i = ∅.
Proof.
  unfold delta. destruct (items !! i) as [it|] eqn:Hi; [| done]. cbn.
  by destruct (process_rejected it ∅ (Forall_lookup_1 _ _ _ _ items_language Hi)) as [lang ->].
Qed.

Lemma rejected_lines (l : list WorkItem) :
  Forall (λ it, is_Some (Config.get_language st (config it))) l →
  length (filter (λ x, x = LCheckApiKey) (mjoin (item_lines writable st <$> l))) = length l.
Proof.
  induction 1 as [|it l Hit _ IH]; [done |].
  change (mjoin (item_lines writable st <$> it :: l))
    with (item_lines writable st it ++ mjoin (item_lines writable st <$> l)).
  rewrite filter_app, length_app, IH. unfold item_lines.
  destruct (process_rejected it ∅ Hit) as [lang ->]. cbn [fst].
  rewrite filter_cons_False, filter_cons_True; done.
Qed.

(** C5. Error path: when the service rejects the credentials, the batch
    is not aborted: in every drained run every item is attempted and
    prints its own "Invalid API key" line (one per item, beyond what was
    printed before), every future returns normally, the main thread prints
    no thread error, and no transcript is written. *)
Theorem pool_rejected_credentials (files0 : Files) (log0 : list Line) (p : Pool) :
  reachable writable st items files0 log0 p → final p →
  files p = files0 ∧ length (collected p) = length items
  ∧ Forall (λ x, x.2 = Returned) (collected p)
  ∧ length (filter (λ x, x = LCheckApiKey) (log p))
    = length (filter (λ x, x = LCheckApiKey) log0) + length items.
Proof.
  intros Hr Hfin. pose proof (drained_outcomes writable st items files0 log0 p Hr Hfin) as Ho.
  assert (Hret : Forall (λ x, x.2 = Returned) (collected p)).
  { rewrite Ho. apply Forall_forall. intros x (i & it & -> & Hit)%elem_of_lookup_imap. cbn.
    unfold outcome_of.
    by destruct (process_rejected it ∅ (Forall_lookup_1 _ _ _ _ items_language Hit)) as [? ->]. }
  split_and!; [| | exact Hret |].
  - destruct (reachable_trace_inv writable st items files0 log0 p Hr) as [_ [-> _]].
    unfold pool_files. apply foldl_unchanged. intros f i. by rewrite delta_rejected, map_empty_union.
  - rewrite Ho. unfold seq_outcomes. by rewrite length_imap.
  - rewrite (drained_log writable st items files0 log0 p Hr Hfin), (collect_log_returned _ Hret).
    by rewrite app_nil_r, filter_app, length_app, rejected_lines.
Qed.

End Rejected.

(** ** The example services *)

(** A service that refuses every call with 401. *)
Definition rejecting_client : TranscriptionClient := {|
  submit_job _ _ := inl (HTTPStatusError 401 NotJsonObject);
  wait_for_completion _ _ := inl (HTTPStatusError 401 NotJsonObject);
  get_job_result _ _ := inl (HTTPStatusError 401 NotJsonObject);
  list_jobs := inl (HTTPStatusError 401 NotJsonObject);
|}.

(** A service that loses the job of the video [lost] (404 while waiting)
    and transcribes every other one. *)
Definition lost_job_client (lost : string) : TranscriptionClient := {|
  submit_job p _ := inr ("job:" +:+ p);
  wait_for_completion j _ :=
    if String.eqb j ("job:" +:+ lost) then inl (HTTPStatusError 404 NotJsonObject)
    else inr ("transcript of " +:+ j);
  get_job_result j _ := inr j;
  list_jobs := inr [];
|}.

Lemma pool_rejected_credentials_witness :
  files (pool_run (client := rejecting_client) (λ _, true) ex_store ex_items 100
           (pool_init ex_items ∅ [])) = ∅
  ∧ length (collected (pool_run (client := rejecting_client) (λ _, true) ex_store ex_items 100
                         (pool_init ex_items ∅ []))) = length ex_items
  ∧ Forall (λ x, x.2 = Returned)
      (collected (pool_run (client := rejecting_client) (λ _, true) ex_store ex_items 100
                    (pool_init ex_items ∅ [])))
  ∧ length (filter (λ x, x = LCheckApiKey)
              (log (pool_run (client := rejecting_client) (λ _, true) ex_store ex_items 100
                      (pool_init ex_items ∅ []))))
    = length (filter (λ x, x = LCheckApiKey) []) + length ex_items.
Proof.
  apply (pool_rejected_credentials (client := rejecting_client) (λ _, true) ex_store ex_items).
  - intros v c. by exists NotJsonObject.
  - apply (bool_decide_unpack _). vm_compute. reflexivity.
  - apply pool_run_rtc.
  - vm_compute. split; [reflexivity | split; reflexivity].
Defined.

(** ** A lost job (spec section 8) *)

(** C6. End-to-end isolation: the example batch of [Discover] against a
    service that loses the job of [a.mp4] (404 from
    [wait_for_completion]).  In every drained run, whatever the schedule:
    every future returns normally, one per item; the transcripts of the
    two other videos are written and nothing else; the log reports the
    HTTP error with the lost video's name, reports both other transcripts
    saved, and never reports the lost video's transcript saved. *)
Theorem lost_job_isolated (p : Pool) :
  reachable (client := lost_job_client "r/Channel 5/13 January/a.mp4") (λ _, true)
    ex_store ex_items ∅ [] p → final p →
  Forall (λ x, x.2 = Returned) (collected p) ∧ length (collected p) = length ex_items
  ∧ files p = {[ "r/Channel 5/13 January/sub/b.txt" :=
                   "transcript of job:r/Channel 5/13 January/sub/b.mp4";
                 "r/Suria/13 January/c.txt" := "transcript of job:r/Suria/13 January/c.mp4" ]}
  ∧ LHttpError "r/Channel 5/13 January/a.mp4" (HTTPStatusError 404 NotJsonObject) ∈ log p
  ∧ LSavedTo "r/Channel 5/13 January/sub/b.txt" ∈ log p
  ∧ LSavedTo "r/Suria/13 January/c.txt" ∈ log p
  ∧ LSavedTo "r/Channel 5/13 January/a.txt" ∉ log p.
Proof.
  intros Hr Hfin. pose proof (drained_outcomes _ _ _ _ _ _ Hr Hfin) as Ho.
  assert (Hret : Forall (λ x, x.2 = Returned) (collected p)).
  { rewrite Ho. vm_compute. repeat constructor. }
  pose proof (drained_log _ _ _ _ _ _ Hr Hfin) as Hl. rewrite (collect_log_returned _ Hret) in Hl.
  destruct (reachable_trace_inv _ _ _ _ _ _ Hr) as [Hinv [Hf _]].
  split_and!; [exact Hret | by rewrite Ho | | rewrite Hl; apply (bool_decide_unpack _);
                                                 vm_compute; reflexivity ..].
  rewrite Hf, pool_files_final; [vm_compute; reflexivity | | exact Hinv | exact Hfin].
  apply (bool_decide_unpack _). vm_compute. reflexivity.
Qed.

Lemma lost_job_isolated_witness :
  let p := pool_run (client := lost_job_client "r/Channel 5/13 January/a.mp4") (λ _, true)
             ex_store ex_items 100 (pool_init ex_items ∅ []) in
  Forall (λ x, x.2 = Returned) (collected p) ∧ length (collected p) = length ex_items
  ∧ files p = {[ "r/Channel 5/13 January/sub/b.txt" :=
                   "transcript of job:r/Channel 5/13 January/sub/b.mp4";
                 "r/Suria/13 January/c.txt" := "transcript of job:r/Suria/13 January/c.mp4" ]}
  ∧ LHttpError "r/Channel 5/13 January/a.mp4" (HTTPStatusError 404 NotJsonObject) ∈ log p
  ∧ LSavedTo "r/Channel 5/13 January/sub/b.txt" ∈ log p
  ∧ LSavedTo "r/Suria/13 January/c.txt" ∈ log p
  ∧ LSavedTo "r/Channel 5/13 January/a.txt" ∉ log p.
Proof.
  apply lost_job_isolated.
  - apply pool_run_rtc.
  - vm_compute. split; [reflexivity | split; reflexivity].
Defined.

End Scenarios.
